(** * emoji.core: a shallow embedding and its properties

    The module [emoji/core.py] converts between emoji shortcodes and emoji
    glyphs ([emojize], [demojize]), locates and counts emoji in a text
    ([emoji_lis], [emoji_count]) and prints the code points of a glyph
    ([to_code_point]).

    Python 3 strings are sequences of code points: a string is a [list Z],
    one integer per code point (lone surrogates included, as [str] allows).
    The four tables of [emoji.unicode_codes] are dictionaries keyed by
    strings: they are [gmap]s, and section variables, since the data
    module is not part of the code under study. *)

From Stdlib Require Import ZArith.
From Stdlib.Strings Require Import String Ascii Byte.
From stdpp Require Import base option list gmap sorting.

#[local] Open Scope Z_scope.

(** ** Strings *)

Abbreviation str := (list Z).

(** An ASCII literal as a Python string. *)
Definition u (s : string) : str :=
  (λ b, Z.of_N (Byte.to_N b)) <$> list_byte_of_string s.

Definition U_FE0F : Z := 0xFE0F.    (* variation selector 16 *)
Definition U_200D : Z := 0x200D.    (* zero width joiner *)
Definition U_1F441 : Z := 0x1F441.  (* eye *)

(** [sep.join(l)] *)
Fixpoint join (sep : str) (l : list str) : str :=
  match l with
  | [] => []
  | [x] => x
  | x :: l' => x ++ sep ++ join sep l'
  end.

(** [s[1:-1]]: the slice from index 1 to the last index excluded; empty
    when [s] has fewer than three characters. *)
Definition slice_1_m1 (s : str) : str :=
  take (length s - 2)%nat (drop 1 s).

(** [format(n, 'x')]: lower-case hexadecimal, no prefix, a minus sign for a
    negative number. *)
Definition hex_digit (d : Z) : Z :=
  if d <? 10 then 48 + d else 87 + d.

Fixpoint hex_digits (fuel : nat) (n : Z) : str :=
  match fuel with
  | O => []
  | S fuel' =>
      if n <? 16 then [hex_digit n]
      else hex_digits fuel' (n / 16) ++ [hex_digit (n mod 16)]
  end.

Definition format_x (n : Z) : str :=
  if n <? 0 then 45 :: hex_digits (S (Z.to_nat (Z.log2 (- n)))) (- n)
  else hex_digits (S (Z.to_nat (Z.log2 n))) n.

(** ** The regular-expression engine, as far as the module uses it

    Every pattern of the module is matched through [re.sub].  A pattern is
    represented by its matcher: given the flag [must_advance] and the text
    that starts at the current position, the length of the match the
    backtracking engine finds there, if any.  [must_advance] is set after an
    empty match: the engine then refuses an empty match at the same
    position (CPython 3.7 and later). *)

Definition matcher := bool → str → option nat.

(** [pattern.sub(repl, text)]: scan from the left; a match is replaced by
    [repl] of the matched text and the scan resumes after it; where no
    match starts, the character is copied.  The scan makes at most two
    steps per position, hence the fuel of [re_sub]. *)
Fixpoint sub_loop (fuel : nat) (m : matcher) (repl : str → str)
    (must_advance : bool) (text : str) : str :=
  match fuel with
  | O => text
  | S fuel' =>
      match m must_advance text with
      | Some n =>
          repl (take n text)
            ++ sub_loop fuel' m repl (bool_decide (n = O)) (drop n text)
      | None =>
          match text with
          | [] => []
          | c :: rest => c :: sub_loop fuel' m repl false rest
          end
      end
  end.

Definition re_sub (m : matcher) (repl : str → str) (text : str) : str :=
  sub_loop (2 * length text + 2) m repl false text.

(** An alternation of escaped literals, [(g1|g2|...)]: the alternatives are
    tried in order and the first one that is a prefix of the text wins. *)
Definition alt_match (alts : list str) : matcher := λ must_advance text,
  length <$>
    find (λ g, bool_decide (g `prefix_of` text)
               && (negb must_advance || negb (bool_decide (g = [])))) alts.

(** [str.replace(old, new)]: every non-overlapping occurrence of [old], from
    the left; with an empty [old], [new] goes between all characters and at
    both ends.  This is the substitution of the one-literal pattern. *)
Definition str_replace (old new : str) (s : str) : str :=
  re_sub (alt_match [old]) (λ _, new) s.

(** ** The tables of [emoji.unicode_codes] and the functions of [emoji.core] *)

Record entity := { location : nat; emoji : str }.

(** The module-level cache [_EMOJI_REGEXP]: [None] until the pattern is
    built, then the alternatives of the compiled pattern. *)
Definition regexp_cache := option (list str).

(** What stops a function of the module: the [IndexError] of Python, or a
    pattern that the embedding does not cover. *)
Inductive error := IndexError | UnmodelledPattern.

Definition result (A : Type) := (error + A)%type.
Definition ok {A} (x : A) : result A := inr x.
Definition raise {A} (e : error) : result A := inl e.
Definition bind {A B} (r : result A) (k : A → result B) : result B :=
  match r with inl e => inl e | inr x => k x end.

Notation "x <- r ;; k" := (bind r (λ x, k))
  (at level 100, r at next level, right associativity, only parsing).

(** [string[0]] *)
Definition index0 (s : str) : result Z :=
  match s with [] => raise IndexError | c :: _ => ok c end.

(** One turn of the loop of [to_code_point] on the character code [c]; the
    state is the pending lead surrogate [p] and the list [r]. *)
Definition code_point_step (st : Z * list str) (c : Z) : Z * list str :=
  let '(p, r) := st in
  if negb (p =? 0) then
    (0, r ++ [format_x (0x10000 + Z.shiftl (p - 0xD800) 10 + (c - 0xDC00))])
  else if (0xD800 <=? c) && (c <=? 0xDBFF) then (c, r)
  else (p, r ++ [format_x c]).

Definition code_point_loop (s : str) : Z * list str :=
  fold_left code_point_step s (0, []).

Definition to_code_point (string : str) (joiner : str) : result str :=
  strip <- (if negb (bool_decide (U_200D ∈ string)) then ok true
            else c <- index0 string ;; ok (bool_decide (c = U_1F441))) ;;
  let string := if strip : bool then str_replace [U_FE0F] [] string
                else string in
  ok (join joiner (code_point_loop string).2).

Section Tables.

Variable EMOJI_UNICODE : gmap str str.         (* canonical name -> glyph *)
Variable EMOJI_ALIAS_UNICODE : gmap str str.   (* alias name -> glyph *)
Variable UNICODE_EMOJI : gmap str str.         (* glyph -> canonical name *)
Variable UNICODE_EMOJI_ALIAS : gmap str str.   (* glyph -> alias name *)

(** [c in UNICODE_EMOJI] for a one-character string [c]. *)
Definition is_emoji (c : Z) : bool :=
  bool_decide (is_Some (UNICODE_EMOJI !! [c])).

Definition emoji_lis (string : str) : list entity :=
  fold_left
    (λ _entities '(pos, c),
       if is_emoji c
       then _entities ++ [{| location := pos; emoji := [c] |}]
       else _entities)
    (imap (λ pos c, (pos, c)) string) [].

Definition emoji_count (string : str) : nat :=
  fold_left (λ c i, if is_emoji i then (c + 1)%nat else c) string O.

(** The token class of the shortcode pattern, as line 40 of the file has
    it: [[a-zA-Z0-9\+\-_&.√¥‚Äô√Ö√©√£√≠√ß()!#*]].  After [.] come the characters
    U+221A, U+00A5, U+201A, U+00C4, U+00F4, U+00D6, U+00A9, U+00A3, U+2260
    and U+00DF (U+221A five times). *)
Definition token_char (c : Z) : bool :=
  ((97 <=? c) && (c <=? 122)) || ((65 <=? c) && (c <=? 90))
  || ((48 <=? c) && (c <=? 57))
  || bool_decide (c ∈ [43; 45; 95; 38; 46; 0x221A; 0xA5; 0x201A; 0xC4; 0xF4;
                       0xD6; 0xA9; 0xA3; 0x2260; 0xDF; 40; 41; 33; 35; 42]).

(** The characters [.^$*+?{}[]\|()] mean something in a pattern. *)
Definition meta_char (c : Z) : bool :=
  bool_decide (c ∈ [46; 94; 36; 42; 43; 63; 123; 125; 91; 93; 92; 124; 40; 41]).

Definition literal (s : str) : bool := forallb (λ c, negb (meta_char c)) s.

(** The longest run of characters satisfying [f] at the head of [s]. *)
Fixpoint run_length (f : Z → bool) (s : str) : nat :=
  match s with
  | c :: s' => if f c then S (run_length f s') else O
  | [] => O
  end.

(** The pattern [(open[token]+close)] for literal delimiters: [open], then
    the longest run of token characters, given back one character at a
    time (down to one) until [close] follows. *)
Definition shortcode_match (open close : str) : matcher := λ _ text,
  if bool_decide (open `prefix_of` text) then
    let body := drop (length open) text in
    k ← find (λ k, bool_decide (close `prefix_of` drop k body))
          (reverse (seq 1 (run_length token_char body)));
    Some (length open + k + length close)%nat
  else None.

Definition _DEFAULT_DELIMITER : str := u ":".

(** The function [replace] nested in [emojize], on [match.group(1)]. *)
Definition emojize_replace (use_aliases : bool) (delimiters : str * str)
    (group1 : str) : str :=
  let mg := str_replace delimiters.2 _DEFAULT_DELIMITER
              (str_replace delimiters.1 _DEFAULT_DELIMITER group1) in
  if use_aliases then default mg (EMOJI_ALIAS_UNICODE !! mg)
  else default mg (EMOJI_UNICODE !! mg).

(** The delimiters are pasted into the pattern as they are.  The embedding
    covers the delimiters that the pattern reads as literal text; for the
    others it answers [UnmodelledPattern]. *)
Definition emojize (string : str) (use_aliases : bool)
    (delimiters : str * str) : result str :=
  if literal delimiters.1 && literal delimiters.2 then
    let pattern := shortcode_match delimiters.1 delimiters.2 in
    ok (re_sub pattern (emojize_replace use_aliases delimiters) string)
  else raise UnmodelledPattern.

(** [EMOJI_UNICODE.values()], in the order of the dictionary. *)
Definition emoji_values : list str := (map_to_list EMOJI_UNICODE).*2.

(** [sorted(l, key=len, reverse=True)]: longest first, and stable. *)
Fixpoint insert_by_len (x : str) (l : list str) : list str :=
  match l with
  | [] => [x]
  | y :: l' =>
      if (length y <=? length x)%nat then x :: y :: l'
      else y :: insert_by_len x l'
  end.

Definition sorted_by_len_reverse (l : list str) : list str :=
  foldr insert_by_len [] l.

(** The alternatives of ['(' + '|'.join(escaped emojis) + ')']; joining no
    glyph at all leaves the pattern [()], whose one alternative is empty. *)
Definition alternatives (emojis : list str) : list str :=
  match emojis with [] => [[]] | _ => emojis end.

Definition get_emoji_regexp (cache : regexp_cache)
    : list str * regexp_cache :=
  match cache with
  | None =>
      let emojis := sorted_by_len_reverse emoji_values in
      let pattern := alternatives emojis in
      (pattern, Some pattern)
  | Some pattern => (pattern, cache)
  end.

(** The function [replace] nested in [demojize], on [match.group(0)]. *)
Definition demojize_replace (use_aliases : bool) (delimiters : str * str)
    (group0 : str) : str :=
  let codes_dict :=
    if use_aliases then UNICODE_EMOJI_ALIAS else UNICODE_EMOJI in
  let val := default group0 (codes_dict !! group0) in
  delimiters.1 ++ slice_1_m1 val ++ delimiters.2.

Definition demojize (cache : regexp_cache) (string : str)
    (use_aliases : bool) (delimiters : str * str) : str * regexp_cache :=
  let '(regexp, cache) := get_emoji_regexp cache in
  (re_sub (alt_match [[U_FE0F]]) (λ _, [])
     (re_sub (alt_match regexp) (demojize_replace use_aliases delimiters)
        string), cache).

(** The cache is empty or holds the pattern of the table: what
    [get_emoji_regexp], its only writer, leaves in it. *)
Definition cache_ok (cache : regexp_cache) : Prop :=
  cache = None
  ∨ cache = Some (alternatives (sorted_by_len_reverse emoji_values)).

End Tables.

(** ** Notions used in the statements *)

(** A matcher reports matches that fit in the text and honours
    [must_advance]. *)
Definition matcher_ok (m : matcher) : Prop :=
  ∀ ma text n, m ma text = Some n →
    (n ≤ length text)%nat ∧ (ma = true → n ≠ O).

(** The scan from a position on, with the fuel of [re_sub]. *)
Definition sub_from (m : matcher) (repl : str → str) (ma : bool)
    (text : str) : str :=
  sub_loop (2 * length text + 2) m repl ma text.

(** Longest first. *)
Definition longer_first (a b : str) : Prop := (length b ≤ length a)%nat.

(** The number a string of lower-case hexadecimal digits denotes. *)
Definition hex_digit_value (c : Z) : Z :=
  if c <? 58 then c - 48 else c - 87.

Definition hex_value (s : str) : Z :=
  fold_left (λ acc c, 16 * acc + hex_digit_value c) s 0.

(** Does the first step of [to_code_point] delete the variation selectors? *)
Definition strips (s : str) : bool :=
  negb (bool_decide (U_200D ∈ s)) || bool_decide (head s = Some U_1F441).

(** The string that the loop of [to_code_point] reads: the input after
    the first step. *)
Definition stripped (s : str) : str :=
  if strips s then filter (λ c, c ≠ U_FE0F) s else s.

(** The glyph "eye in speech bubble" in its fully qualified form. *)
Definition eye_in_speech_bubble : str :=
  [U_1F441; U_FE0F; U_200D; 0x1F5E8; U_FE0F].

(** A shortcode name: one or more characters of the token class. *)
Definition token (n : str) : Prop :=
  n ≠ [] ∧ Forall (λ c, Is_true (token_char c)) n.

(** The key of the name [n] in the tables: [:n:]. *)
Definition shortcode (n : str) : str :=
  _DEFAULT_DELIMITER ++ n ++ _DEFAULT_DELIMITER.

(** The record [emoji_lis] makes of the character [pc.2] at index [pc.1]. *)
Definition entity_at (pc : nat * Z) : entity :=
  {| location := pc.1; emoji := [pc.2] |}.

(** ** A small table, for the concrete cases *)

Definition thumbs_up : str := [0x1F44D].
Definition hushed_face : str := [0x1F62F].
Definition man : str := [0x1F468].
Definition family_man_woman : str := [0x1F468; U_200D; 0x1F469].

Definition sample_EMOJI_UNICODE : gmap str str :=
  {[ u ":thumbs_up:" := thumbs_up; u ":hushed_face:" := hushed_face;
     u ":man:" := man; u ":family_man_woman:" := family_man_woman ]}.

Definition sample_EMOJI_ALIAS_UNICODE : gmap str str :=
  <[ u ":thumbsup:" := thumbs_up ]> sample_EMOJI_UNICODE.

Definition sample_UNICODE_EMOJI : gmap str str :=
  {[ thumbs_up := u ":thumbs_up:"; hushed_face := u ":hushed_face:";
     man := u ":man:"; family_man_woman := u ":family_man_woman:" ]}.

Definition sample_UNICODE_EMOJI_ALIAS : gmap str str :=
  <[ thumbs_up := u ":thumbsup:" ]> sample_UNICODE_EMOJI.

(** The alias table of the sample with a second alias of U+1F44D. *)
Definition two_alias_EMOJI_ALIAS_UNICODE : gmap str str :=
  <[ u ":+1:" := thumbs_up ]> sample_EMOJI_ALIAS_UNICODE.

(** A table whose one name, [:é:], is no token, and whose glyph is the
    letter of the name. *)
Definition accent_EMOJI_UNICODE : gmap str str :=
  {[ [58; 0xE9; 58] := [0xE9] ]}.

Definition accent_UNICODE_EMOJI : gmap str str :=
  {[ [0xE9] := [58; 0xE9; 58] ]}.

(** The glyph-to-alias table of the sample with one entry lost. *)
Definition stale_UNICODE_EMOJI_ALIAS : gmap str str :=
  delete thumbs_up sample_UNICODE_EMOJI_ALIAS.

(** An entity moved [k] characters to the right. *)
Definition shift_location (k : nat) (e : entity) : entity :=
  {| location := k + location e; emoji := emoji e |}.

(** A glyph-to-name table whose only key has three code points. *)
Definition family_UNICODE_EMOJI : gmap str str :=
  {[ family_man_woman := u ":family_man_woman:" ]}.

(** A lower-case hexadecimal digit, as a character. *)
Definition hex_char (c : Z) : Prop := 48 ≤ c ≤ 57 ∨ 97 ≤ c ≤ 102.

(** A delimiter that the pattern reads as it is and cannot mistake for a
    part of a name: not empty, free of metacharacters and of token
    characters.  The default [:] is one. *)
Definition plain_delimiter (d : str) : Prop :=
  d ≠ [] ∧ literal d = true ∧ Forall (λ c, token_char c = false) d.

(** * Properties *)

(** ** The substitution loop *)

Lemma sub_loop_fuel m repl :
  matcher_ok m →
  ∀ fuel1 fuel2 ma text,
    (2 * length text + (if ma : bool then 1 else 2) ≤ fuel1)%nat →
    (2 * length text + (if ma : bool then 1 else 2) ≤ fuel2)%nat →
    sub_loop fuel1 m repl ma text = sub_loop fuel2 m repl ma text.
Proof.
  intros Hok fuel1.
  induction fuel1 as [|fuel1 IH]; intros fuel2 ma text H1 H2.
  { destruct ma; lia. }
  destruct fuel2 as [|fuel2]; [destruct ma; lia|].
  simpl. destruct (m ma text) as [n|] eqn:Hm.
  - destruct (Hok _ _ _ Hm) as [Hlen Hadv].
    f_equal. apply IH.
    + rewrite length_drop.
      destruct ma; [specialize (Hadv eq_refl)|]; case_bool_decide; lia.
    + rewrite length_drop.
      destruct ma; [specialize (Hadv eq_refl)|]; case_bool_decide; lia.
  - destruct text as [|c rest]; [done|].
    f_equal. apply IH; simpl in *; destruct ma; lia.
Qed.

Lemma sub_from_unfold m repl ma text :
  matcher_ok m →
  sub_from m repl ma text =
    match m ma text with
    | Some n =>
        repl (take n text)
          ++ sub_from m repl (bool_decide (n = O)) (drop n text)
    | None =>
        match text with
        | [] => []
        | c :: rest => c :: sub_from m repl false rest
        end
    end.
Proof.
  intros Hok. unfold sub_from at 1.
  replace (2 * length text + 2)%nat with (S (2 * length text + 1)) by lia.
  simpl. destruct (m ma text) as [n|] eqn:Hm.
  - destruct (Hok _ _ _ Hm) as [Hlen Hadv].
    f_equal. apply sub_loop_fuel; [done| |].
    + rewrite length_drop.
      destruct ma; [specialize (Hadv eq_refl)|]; case_bool_decide; lia.
    + case_bool_decide; lia.
  - destruct text as [|c rest]; [done|].
    f_equal. apply sub_loop_fuel; [done| |]; simpl; lia.
Qed.

Lemma re_sub_from m repl text : re_sub m repl text = sub_from m repl false text.
Proof. reflexivity. Qed.

Lemma alt_match_Some alts ma text n :
  alt_match alts ma text = Some n →
  ∃ g, g ∈ alts ∧ g `prefix_of` text ∧ n = length g ∧ (ma = true → g ≠ []).
Proof.
  unfold alt_match. intros H.
  destruct (find _ alts) as [g|] eqn:Hf; simplify_eq/=.
  apply find_some in Hf as [Hin Hp].
  apply andb_prop in Hp as [Hp Hne].
  exists g. split_and!; [by apply list_elem_of_In|by apply bool_decide_eq_true_1 in Hp|done|].
  intros ->. simpl in Hne. by case_bool_decide.
Qed.

Lemma alt_match_ok alts : matcher_ok (alt_match alts).
Proof.
  intros ma text n (g & _ & Hp & -> & Hne)%alt_match_Some. split.
  - by apply prefix_length.
  - intros Hma. specialize (Hne Hma). by destruct g.
Qed.

(** Where no alternative is a prefix of the text, nothing matches. *)
Lemma alt_match_None alts ma text :
  (∀ g, g ∈ alts → ¬ g `prefix_of` text) → alt_match alts ma text = None.
Proof.
  intros H. unfold alt_match.
  destruct (find _ alts) as [g|] eqn:Hf; [|done].
  apply find_some in Hf as [Hin Hp].
  apply andb_prop in Hp as [Hp _]. apply bool_decide_eq_true_1 in Hp.
  destruct (H g); [by apply list_elem_of_In|done].
Qed.

Lemma alt_match_single g ma text :
  alt_match [g] ma text =
    if bool_decide (g `prefix_of` text)
       && (negb ma || negb (bool_decide (g = [])))
    then Some (length g) else None.
Proof. unfold alt_match. simpl. by destruct (_ && _). Qed.

(** Deleting a character: the substitution of the pattern made of that one
    character by the empty string. *)
Lemma sub_from_delete c text :
  sub_from (alt_match [[c]]) (λ _, []) false text = filter (λ x, x ≠ c) text.
Proof.
  induction text as [|x rest IH].
  { rewrite sub_from_unfold; [|apply alt_match_ok]. done. }
  rewrite sub_from_unfold; [|apply alt_match_ok].
  rewrite alt_match_single.
  destruct (decide (x = c)) as [->|Hne].
  - rewrite bool_decide_eq_true_2; [|by apply prefix_cons, prefix_nil].
    cbn [andb negb orb length drop app].
    rewrite filter_cons_False; [|naive_solver].
    rewrite bool_decide_eq_false_2; [|lia]. exact IH.
  - rewrite bool_decide_eq_false_2.
    2:{ intros Hp. apply prefix_cons_inv_1 in Hp. congruence. }
    cbn [andb]. rewrite filter_cons_True; [|done]. by rewrite IH.
Qed.

Lemma str_replace_delete c s : str_replace [c] [] s = filter (λ x, x ≠ c) s.
Proof. apply sub_from_delete. Qed.

(** ** [format_x] *)

Lemma hex_digit_value_digit d :
  0 ≤ d < 16 → hex_digit_value (hex_digit d) = d.
Proof.
  intros Hd. unfold hex_digit, hex_digit_value.
  destruct (d <? 10) eqn:E.
  - apply Z.ltb_lt in E.
    assert ((48 + d <? 58) = true) as -> by (apply Z.ltb_lt; lia). lia.
  - apply Z.ltb_ge in E.
    assert ((87 + d <? 58) = false) as -> by (apply Z.ltb_ge; lia). lia.
Qed.

Lemma hex_digits_value fuel : ∀ n,
  0 ≤ n < 2 ^ Z.of_nat fuel → hex_value (hex_digits fuel n) = n.
Proof.
  induction fuel as [|fuel IH]; intros n Hn.
  { simpl in *. unfold hex_value. simpl. lia. }
  simpl hex_digits. destruct (n <? 16) eqn:E.
  - apply Z.ltb_lt in E. unfold hex_value. simpl.
    rewrite hex_digit_value_digit by lia. lia.
  - apply Z.ltb_ge in E. unfold hex_value in *.
    rewrite fold_left_app. simpl. rewrite IH.
    + rewrite hex_digit_value_digit by (apply Z.mod_pos_bound; lia).
      pose proof (Z.div_mod n 16). lia.
    + rewrite Nat2Z.inj_succ, Z.pow_succ_r in Hn by lia.
      split; [apply Z.div_pos; lia|].
      apply Z.div_lt_upper_bound; lia.
Qed.

(** [format_x] prints a natural number in base 16: the fuel it gives to
    [hex_digits] is enough. *)
Lemma format_x_value n : 0 ≤ n → hex_value (format_x n) = n.
Proof.
  intros Hn. unfold format_x.
  assert ((n <? 0) = false) as -> by (apply Z.ltb_ge; lia).
  apply hex_digits_value. split; [done|].
  rewrite Nat2Z.inj_succ, Z2Nat.id by apply Z.log2_nonneg.
  destruct (decide (n = 0)) as [->|Hne]; [done|].
  apply Z.log2_spec. lia.
Qed.

(** ** [to_code_point] *)

Lemma code_point_fold s : ∀ p r,
  fold_left code_point_step s (p, r)
  = ((fold_left code_point_step s (p, [])).1,
     r ++ (fold_left code_point_step s (p, [])).2).
Proof.
  induction s as [|c s IH]; intros p r; simpl.
  { by rewrite app_nil_r. }
  destruct (negb (p =? 0)); [|destruct (_ && _)];
    rewrite IH; symmetry; rewrite IH; simpl;
    by rewrite ?app_nil_r, <-?app_assoc.
Qed.

Lemma code_point_loop_app s1 s2 :
  (code_point_loop s1).1 = 0 →
  code_point_loop (s1 ++ s2)
  = ((code_point_loop s2).1, (code_point_loop s1).2 ++ (code_point_loop s2).2).
Proof.
  unfold code_point_loop. intros Hp. rewrite fold_left_app.
  destruct (fold_left code_point_step s1 (0, [])) as [p r] eqn:E.
  simpl in Hp. subst p. by rewrite code_point_fold.
Qed.

(** A lead surrogate takes whatever character comes next as its second
    half. *)
Lemma code_point_loop_lead h c rest :
  0xD800 ≤ h ≤ 0xDBFF →
  code_point_loop (h :: c :: rest)
  = ((code_point_loop rest).1,
     format_x (0x10000 + Z.shiftl (h - 0xD800) 10 + (c - 0xDC00))
       :: (code_point_loop rest).2).
Proof.
  intros Hh. unfold code_point_loop. simpl.
  assert ((0xD800 <=? h) && (h <=? 0xDBFF) = true) as ->.
  { apply andb_true_intro. split; apply Z.leb_le; lia. }
  simpl. assert ((h =? 0) = false) as -> by (apply Z.eqb_neq; lia).
  simpl. by rewrite code_point_fold.
Qed.

Lemma code_point_loop_lead_last h :
  0xD800 ≤ h ≤ 0xDBFF → code_point_loop [h] = (h, []).
Proof.
  intros Hh. unfold code_point_loop. simpl.
  assert ((0xD800 <=? h) && (h <=? 0xDBFF) = true) as ->; [|done].
  apply andb_true_intro. split; apply Z.leb_le; lia.
Qed.

Lemma to_code_point_eq s j :
  to_code_point s j
  = ok (join j (code_point_loop
                  (if strips s then filter (λ c, c ≠ U_FE0F) s else s)).2).
Proof.
  unfold to_code_point, strips.
  case_bool_decide as Hz; simpl.
  - destruct s as [|c s]; [by apply elem_of_nil in Hz|]. simpl.
    case_bool_decide as Hc; subst.
    + rewrite bool_decide_eq_true_2 by done. by rewrite str_replace_delete.
    + rewrite bool_decide_eq_false_2; [done|]. intros [=]. done.
  - by rewrite str_replace_delete.
Qed.

Lemma filter_id_notin c (s : str) : c ∉ s → filter (λ x, x ≠ c) s = s.
Proof.
  induction s as [|x s IH]; [done|]. intros Hn.
  apply not_elem_of_cons in Hn as [Hx Hs].
  rewrite filter_cons_True by done. by rewrite IH.
Qed.

Lemma to_code_point_plain s j :
  U_FE0F ∉ s → to_code_point s j = ok (join j (code_point_loop s).2).
Proof.
  intros Hn. rewrite to_code_point_eq.
  destruct (strips s); [|done]. by rewrite filter_id_notin.
Qed.

(** C5, as stated, fails: the input begins with U+1F441 (and contains the
    joiner U+200D), and its variation selectors are deleted, not kept: the
    result is not what the loop gives on the input as it is. *)
Lemma to_code_point_eye_loses_selectors :
  to_code_point eye_in_speech_bubble (u "-") = ok (u "1f441-200d-1f5e8")
  ∧ to_code_point eye_in_speech_bubble (u "-")
    ≠ ok (join (u "-") (code_point_loop eye_in_speech_bubble).2).
Proof. split; [by vm_compute|]. vm_compute. intros [=]. Qed.

(** C5, amended: [to_code_point] keeps the variation selectors U+FE0F only
    when the input contains the joiner U+200D and does not begin with
    U+1F441; in every other case (no joiner, or U+1F441 first) it deletes
    all of them before it encodes the input. *)
Theorem to_code_point_variation_selector (s j : str) :
  to_code_point s j
  = ok (join j (code_point_loop
                  (if bool_decide (U_200D ∈ s ∧ head s ≠ Some U_1F441)
                   then s else filter (λ c, c ≠ U_FE0F) s)).2).
Proof.
  rewrite to_code_point_eq. unfold strips.
  repeat case_bool_decide; simpl; try done; tauto.
Qed.

(** C6, as stated, fails: the lead surrogate U+D83D is followed by "A",
    which is no trail surrogate, yet it is not dropped: the output is one
    group made of both, not the encoding of "A" alone. *)
Lemma to_code_point_lead_not_dropped :
  to_code_point [0xD83D; 0x41] (u "-") = ok (u "11841")
  ∧ to_code_point [0x41] (u "-") = ok (u "41")
  ∧ to_code_point [0xD83D; 0x41] (u "-") ≠ to_code_point [0x41] (u "-").
Proof. split_and!; [by vm_compute..|]. vm_compute. intros [=]. Qed.

(** C6, amended: take the string that the loop reads (the input after the
    variation-selector step) and in it a lead surrogate [h] (0xD800 to
    0xDBFF) that is not itself the second half of a pair.  If [h] is the
    last character, it contributes nothing to the output.  If a character
    [c] follows, trail surrogate or not, [h] and [c] give the one group
    [0x10000 + ((h - 0xD800) << 10) + (c - 0xDC00)] in hexadecimal, and the
    characters after [c] are encoded as they are on their own. *)
Theorem to_code_point_lead_surrogate (s pre tail j : str) (h : Z) :
  0xD800 ≤ h ≤ 0xDBFF →
  (code_point_loop pre).1 = 0 →
  stripped s = pre ++ h :: tail →
  to_code_point s j
  = ok (join j ((code_point_loop pre).2
                ++ match tail with
                   | [] => []
                   | c :: rest =>
                       format_x (0x10000 + Z.shiftl (h - 0xD800) 10
                                 + (c - 0xDC00))
                       :: (code_point_loop rest).2
                   end)).
Proof.
  intros Hh Hp Hs. rewrite to_code_point_eq. fold (stripped s).
  rewrite Hs, code_point_loop_app by done.
  destruct tail as [|c rest].
  - by rewrite code_point_loop_lead_last.
  - by rewrite code_point_loop_lead.
Qed.

Lemma to_code_point_lead_surrogate_witness :
  to_code_point [0x61; 0xD83D; U_FE0F; 0x41; 0x62] (u "-")
  = ok (join (u "-")
          ((code_point_loop [0x61]).2
           ++ format_x (0x10000 + Z.shiftl (0xD83D - 0xD800) 10
                        + (0x41 - 0xDC00))
           :: (code_point_loop [0x62]).2)).
Proof.
  apply (to_code_point_lead_surrogate [0x61; 0xD83D; U_FE0F; 0x41; 0x62]
           [0x61] [0x41; 0x62] (u "-") 0xD83D).
  - lia.
  - reflexivity.
  - vm_compute. reflexivity.
Defined.

(** C10: on the empty string [to_code_point] returns the empty string; it
    never raises, on any input, since [string[0]] is read only when the
    string contains U+200D. *)
Theorem to_code_point_empty (joiner : str) :
  to_code_point [] joiner = ok []
  ∧ ∀ s j, ∃ r, to_code_point s j = ok r.
Proof.
  split; [reflexivity|]. intros s j. rewrite to_code_point_eq. eauto.
Qed.

(** ** [emoji_lis] and [emoji_count] *)

Section Locate.

Variable UNICODE_EMOJI : gmap str str.

Lemma emoji_lis_filter (s : str) :
  emoji_lis UNICODE_EMOJI s
  = entity_at <$> filter (λ pc, is_emoji UNICODE_EMOJI pc.2)
                    (imap (λ pos c, (pos, c)) s).
Proof.
  unfold emoji_lis. induction s as [|c s IH] using rev_ind; [done|].
  rewrite imap_app, fold_left_app, filter_app, fmap_app, IH. simpl.
  rewrite filter_cons. simpl.
  destruct (is_emoji UNICODE_EMOJI c); simpl; by rewrite ?app_nil_r.
Qed.

Lemma emoji_count_filter (s : str) :
  emoji_count UNICODE_EMOJI s
  = length (filter (λ c, is_emoji UNICODE_EMOJI c) s).
Proof.
  unfold emoji_count. induction s as [|c s IH] using rev_ind; [done|].
  rewrite fold_left_app, filter_app, length_app, IH. simpl.
  rewrite filter_cons. simpl.
  destruct (is_emoji UNICODE_EMOJI c); simpl; lia.
Qed.

(** C8: [emoji_count] is the length of [emoji_lis]; both select the
    characters of the input that, as one-character strings, are keys of
    [UNICODE_EMOJI], and [emoji_lis] records each with its index. *)
Theorem emoji_count_is_length_of_emoji_lis (s : str) :
  emoji_count UNICODE_EMOJI s = length (emoji_lis UNICODE_EMOJI s)
  ∧ emoji_count UNICODE_EMOJI s
    = length (filter (λ c, is_Some (UNICODE_EMOJI !! [c])) s)
  ∧ ∀ pos g, {| location := pos; emoji := g |} ∈ emoji_lis UNICODE_EMOJI s
      ↔ ∃ c, s !! pos = Some c ∧ g = [c] ∧ is_Some (UNICODE_EMOJI !! [c]).
Proof.
  split_and!.
  - rewrite emoji_count_filter, emoji_lis_filter, length_fmap.
    induction s as [|c s IH] using rev_ind; [done|].
    rewrite imap_app, !filter_app, !length_app, IH. simpl.
    rewrite !filter_cons. simpl.
    by destruct (is_emoji UNICODE_EMOJI c).
  - rewrite emoji_count_filter. f_equal. apply list_filter_iff.
    intros c. unfold is_emoji. by rewrite bool_decide_spec.
  - intros pos g. rewrite emoji_lis_filter, list_elem_of_fmap. split.
    + intros ([pos' c] & Heq & Hin). unfold entity_at in Heq.
      simpl in Heq. injection Heq as -> ->.
      apply list_elem_of_filter in Hin as [He Hin]. simpl in He.
      apply elem_of_lookup_imap in Hin as (i & c' & [= -> ->] & Hl).
      exists c'. split_and!; [done..|].
      unfold is_emoji in He. by apply bool_decide_unpack in He.
    + intros (c & Hl & -> & Hs). exists (pos, c). split; [done|].
      apply list_elem_of_filter. split.
      * simpl. unfold is_emoji. by apply bool_decide_pack.
      * apply elem_of_lookup_imap. eauto.
Qed.

End Locate.

(** ** The glyph pattern *)

Lemma elem_of_insert_by_len g x l :
  g ∈ insert_by_len x l ↔ g = x ∨ g ∈ l.
Proof.
  induction l as [|y l IH]; simpl.
  { rewrite list_elem_of_singleton, elem_of_nil. tauto. }
  destruct (length y <=? length x)%nat.
  - by rewrite elem_of_cons.
  - rewrite !elem_of_cons, IH. tauto.
Qed.

Lemma elem_of_sorted_by_len_reverse g l :
  g ∈ sorted_by_len_reverse l ↔ g ∈ l.
Proof.
  induction l as [|x l IH]; simpl; [done|].
  by rewrite elem_of_insert_by_len, elem_of_cons, IH.
Qed.

Lemma insert_by_len_sorted x l :
  StronglySorted longer_first l →
  StronglySorted longer_first (insert_by_len x l).
Proof.
  induction 1 as [|y l Hs IH Hall]; simpl.
  { repeat constructor. }
  destruct (length y <=? length x)%nat eqn:Hle.
  - apply Nat.leb_le in Hle. constructor; [by constructor|].
    constructor; [done|].
    eapply Forall_impl; [exact Hall|]. unfold longer_first. intros; lia.
  - apply Nat.leb_gt in Hle. constructor; [done|].
    apply Forall_forall. intros z [->|Hz]%elem_of_insert_by_len.
    + unfold longer_first. lia.
    + by eapply Forall_forall in Hall.
Qed.

Lemma sorted_by_len_reverse_sorted l :
  StronglySorted longer_first (sorted_by_len_reverse l).
Proof.
  induction l as [|x l IH]; simpl; [constructor|].
  by apply insert_by_len_sorted.
Qed.

Lemma alternatives_sorted l :
  StronglySorted longer_first l → StronglySorted longer_first (alternatives l).
Proof. destruct 1; simpl; [repeat constructor|by constructor]. Qed.

Lemma elem_of_alternatives g l : l ≠ [] → g ∈ alternatives l ↔ g ∈ l.
Proof. by destruct l. Qed.

(** In a pattern that lists its alternatives longest first, the match at
    the head of a text is the longest alternative that is a prefix of it. *)
Lemma alt_match_longest alts G text :
  StronglySorted longer_first alts →
  G ∈ alts →
  G `prefix_of` text →
  (∀ g, g ∈ alts → g `prefix_of` text → (length g ≤ length G)%nat) →
  alt_match alts false text = Some (length G).
Proof.
  unfold alt_match. intros Hs HG HGp Hlong.
  induction Hs as [|a alts Hs IH Hall]; [by apply elem_of_nil in HG|].
  simpl. case_bool_decide as Ha; simpl.
  - f_equal. apply Nat.le_antisymm.
    + apply Hlong; [by left|done].
    + apply elem_of_cons in HG as [->|HG]; [done|].
      by eapply Forall_forall in Hall.
  - apply elem_of_cons in HG as [->|HG]; [done|].
    apply IH; [done|]. intros g Hg. apply Hlong. by right.
Qed.

(** A stretch of text in which no alternative starts is copied. *)
Lemma sub_from_copy alts repl pre rest :
  (∀ g i, g ∈ alts → (i < length pre)%nat →
     ¬ g `prefix_of` drop i (pre ++ rest)) →
  sub_from (alt_match alts) repl false (pre ++ rest)
  = pre ++ sub_from (alt_match alts) repl false rest.
Proof.
  induction pre as [|c pre IH]; intros Hno; [done|].
  rewrite sub_from_unfold by apply alt_match_ok.
  rewrite alt_match_None.
  2:{ intros g Hg. apply (Hno g O Hg). simpl. lia. }
  simpl. f_equal. apply IH. intros g i Hg Hi.
  apply (Hno g (S i) Hg). simpl. lia.
Qed.

(** A sufficient condition for the above: no alternative begins with a
    character of the stretch. *)
Lemma no_match_by_head (alts : list str) (pre rest : str) :
  (∀ g, g ∈ alts → ∃ c, head g = Some c ∧ c ∉ pre) →
  ∀ g i, g ∈ alts → (i < length pre)%nat →
    ¬ g `prefix_of` drop i (pre ++ rest).
Proof.
  intros Hh g i Hg Hi Hp.
  destruct (Hh g Hg) as (c & Hc & Hn).
  destruct g as [|c' g]; simplify_eq/=.
  rewrite drop_app_le in Hp by lia.
  destruct (drop i pre) as [|x t] eqn:Hd.
  { apply (f_equal length) in Hd. rewrite length_drop in Hd. simpl in Hd. lia. }
  simpl in Hp. apply prefix_cons_inv_1 in Hp. subst x.
  apply Hn. apply (subseteq_drop i pre). rewrite Hd. by left.
Qed.

(** ** [demojize] *)

Section Demojize.

Variable EMOJI_UNICODE : gmap str str.
Variable UNICODE_EMOJI : gmap str str.
Variable UNICODE_EMOJI_ALIAS : gmap str str.

Abbreviation demojize := (demojize EMOJI_UNICODE UNICODE_EMOJI UNICODE_EMOJI_ALIAS).
Abbreviation replace :=
  (demojize_replace UNICODE_EMOJI UNICODE_EMOJI_ALIAS).
Abbreviation values := (emoji_values EMOJI_UNICODE).
Abbreviation the_pattern := (alternatives (sorted_by_len_reverse values)).
Abbreviation cache_ok := (cache_ok EMOJI_UNICODE).

Lemma get_emoji_regexp_ok cache :
  cache_ok cache →
  get_emoji_regexp EMOJI_UNICODE cache = (the_pattern, Some the_pattern).
Proof. by intros [->| ->]. Qed.

(** A call leaves the cache filled, whatever it found. *)
Lemma demojize_cache cache s b d :
  cache_ok cache → cache_ok (demojize cache s b d).2.
Proof.
  intros Hc. unfold demojize.
  rewrite get_emoji_regexp_ok by done. by right.
Qed.

Lemma demojize_eq cache s b d :
  cache_ok cache →
  (demojize cache s b d).1
  = filter (λ c, c ≠ U_FE0F)
      (sub_from (alt_match the_pattern) (replace b d) false s).
Proof.
  intros Hc. unfold demojize.
  rewrite get_emoji_regexp_ok by done. simpl.
  by rewrite !re_sub_from, sub_from_delete.
Qed.

Lemma elem_of_the_pattern g :
  values ≠ [] → g ∈ the_pattern ↔ g ∈ values.
Proof.
  intros Hne. rewrite elem_of_alternatives.
  - apply elem_of_sorted_by_len_reverse.
  - intros Hs. destruct values as [|x l] eqn:E; [done|].
    assert (x ∈ sorted_by_len_reverse (x :: l)) as Hx.
    { apply elem_of_sorted_by_len_reverse. by left. }
    rewrite Hs in Hx. by apply elem_of_nil in Hx.
Qed.

Lemma the_pattern_sorted : StronglySorted longer_first the_pattern.
Proof. apply alternatives_sorted, sorted_by_len_reverse_sorted. Qed.

(** The glyph [G] of the table, met after a stretch [pre] in which no glyph
    of the table starts, and the longest glyph of the table at its place,
    is replaced as a whole; the scan goes on behind it. *)
Lemma demojize_at cache pre G post b d :
  cache_ok cache →
  G ∈ values → G ≠ [] →
  (∀ g i, g ∈ values → (i < length pre)%nat →
     ¬ g `prefix_of` drop i (pre ++ G ++ post)) →
  (∀ g, g ∈ values → g `prefix_of` G ++ post →
     (length g ≤ length G)%nat) →
  (demojize cache (pre ++ G ++ post) b d).1
  = filter (λ c, c ≠ U_FE0F) (pre ++ replace b d G)
    ++ (demojize cache post b d).1.
Proof.
  intros Hc HG Hne Hpre Hlong.
  assert (values ≠ []) as Hv by (intros E; rewrite E in HG; by apply elem_of_nil in HG).
  rewrite !demojize_eq by done.
  rewrite sub_from_copy.
  2:{ intros g i Hg. apply Hpre. by apply elem_of_the_pattern. }
  rewrite sub_from_unfold by apply alt_match_ok.
  rewrite (alt_match_longest _ G).
  - rewrite take_app_length, drop_app_length.
    rewrite bool_decide_eq_false_2 by (by destruct G).
    by rewrite !filter_app, <-app_assoc.
  - apply the_pattern_sorted.
  - by apply elem_of_the_pattern.
  - by apply prefix_app_r.
  - intros g Hg. apply Hlong. by apply elem_of_the_pattern.
Qed.

(** With no empty glyph in the table, nothing is inserted at the end of the
    text. *)
Lemma demojize_nil cache b d :
  cache_ok cache → values ≠ [] → [] ∉ values →
  (demojize cache [] b d).1 = [].
Proof.
  intros Hc Hv Hne. rewrite demojize_eq by done.
  rewrite sub_from_unfold by apply alt_match_ok.
  rewrite alt_match_None; [done|].
  intros g Hg Hp. apply prefix_nil_inv in Hp. subst g.
  by apply Hne, elem_of_the_pattern.
Qed.

(** C9: the result of [demojize] holds no U+FE0F, whatever the text, the
    delimiters, the naming mode and the state of the cache: the last pass
    deletes them all, those of the delimiters included. *)
Theorem demojize_no_variation_selector (cache : regexp_cache) (s : str)
    (use_aliases : bool) (delimiters : str * str) :
  U_FE0F ∉ (demojize cache s use_aliases delimiters).1.
Proof.
  unfold demojize.
  destruct (get_emoji_regexp EMOJI_UNICODE cache) as [regexp cache'].
  simpl. rewrite re_sub_from, sub_from_delete.
  intros [Hne _]%list_elem_of_filter. done.
Qed.


End Demojize.

(** ** [emojize] *)

Lemma str_replace_same old s : old ≠ [] → str_replace old old s = s.
Proof.
  intros Hne. unfold str_replace. rewrite re_sub_from.
  remember (length s) as k eqn:Hk. revert s Hk.
  induction k as [k IH] using lt_wf_ind. intros s ->.
  rewrite sub_from_unfold by apply alt_match_ok.
  rewrite alt_match_single.
  case_bool_decide as Hp; simpl.
  - destruct Hp as [t ->].
    rewrite drop_app_length.
    rewrite bool_decide_eq_false_2 by (by destruct old).
    f_equal. apply (IH (length t)); [|done].
    rewrite length_app. destruct old; [done|simpl; lia].
  - destruct s as [|c s]; [done|].
    f_equal. apply (IH (length s)); [simpl; lia|done].
Qed.

Lemma run_length_token n rest :
  Forall (λ c, Is_true (token_char c)) n →
  run_length token_char (n ++ 58 :: rest) = length n.
Proof.
  induction 1 as [|c n Hc _ IH]; [done|].
  simpl. destruct (token_char c); [|done]. by rewrite IH.
Qed.

Lemma reverse_seq_S k : reverse (seq 1 (S k)) = S k :: reverse (seq 1 k).
Proof. by rewrite seq_S, reverse_app. Qed.

(** On the text [:n:], the pattern with the default delimiters matches all
    of it. *)
Lemma shortcode_match_whole ma n :
  token n →
  shortcode_match _DEFAULT_DELIMITER _DEFAULT_DELIMITER ma (shortcode n)
  = Some (length (shortcode n)).
Proof.
  intros [Hne Htok]. unfold shortcode_match, shortcode.
  rewrite bool_decide_eq_true_2 by (by apply prefix_app_r).
  rewrite drop_app_length.
  change _DEFAULT_DELIMITER with [58]. rewrite run_length_token by done.
  destruct n as [|c n]; [done|].
  cbn [length]. rewrite reverse_seq_S. cbn [find].
  change (drop (S (length n)) ((c :: n) ++ [58]))
    with (drop (length n) (n ++ [58])).
  rewrite drop_app_length. case_bool_decide as Hp; [|done].
  simpl. rewrite length_app. simpl. f_equal; lia.
Qed.

Lemma token_no_selector n : token n → U_FE0F ∉ n.
Proof.
  intros [_ Htok] Hin. rewrite Forall_forall in Htok.
  by apply Htok in Hin.
Qed.

Lemma slice_shortcode n : slice_1_m1 (shortcode n) = n.
Proof.
  unfold slice_1_m1, shortcode. change _DEFAULT_DELIMITER with [58].
  change (drop 1 ([58] ++ n ++ [58])) with (n ++ [58]).
  rewrite !length_app. cbn [length].
  replace (1 + (length n + 1) - 2)%nat with (length n) by lia.
  by rewrite take_app_length.
Qed.

Lemma run_length_le f s : (run_length f s ≤ length s)%nat.
Proof. induction s as [|c s IH]; simpl; [lia|]. destruct (f c); simpl; lia. Qed.

Lemma shortcode_match_ok open close : matcher_ok (shortcode_match open close).
Proof.
  intros ma text n. unfold shortcode_match.
  case_bool_decide as Hopen; [|done].
  destruct (find _ _) as [k|] eqn:Hf; [|done]. intros [= <-].
  apply find_some in Hf as [Hin Hclose].
  apply bool_decide_eq_true_1 in Hclose. apply prefix_length in Hclose.
  apply list_elem_of_In, elem_of_reverse, list_elem_of_In, in_seq in Hin.
  pose proof (run_length_le token_char (drop (length open) text)) as Hrun.
  rewrite !length_drop in *. split; lia.
Qed.

Section Roundtrip.

Variable EMOJI_UNICODE : gmap str str.
Variable EMOJI_ALIAS_UNICODE : gmap str str.
Variable UNICODE_EMOJI : gmap str str.
Variable UNICODE_EMOJI_ALIAS : gmap str str.

Abbreviation emojize := (emojize EMOJI_UNICODE EMOJI_ALIAS_UNICODE).
Abbreviation demojize :=
  (demojize EMOJI_UNICODE UNICODE_EMOJI UNICODE_EMOJI_ALIAS).
Abbreviation values := (emoji_values EMOJI_UNICODE).
Abbreviation defaults := (_DEFAULT_DELIMITER, _DEFAULT_DELIMITER).

(** A known shortcode, alone in the text, becomes its glyph. *)
Lemma emojize_shortcode (use_aliases : bool) n g :
  token n →
  (if use_aliases then EMOJI_ALIAS_UNICODE else EMOJI_UNICODE)
    !! shortcode n = Some g →
  emojize (shortcode n) use_aliases defaults = ok g.
Proof.
  intros Htok Hg. unfold emojize.
  change (literal defaults.1 && literal defaults.2) with true.
  cbn [fst snd]. f_equal.
  rewrite re_sub_from, sub_from_unfold by apply shortcode_match_ok.
  rewrite shortcode_match_whole by done.
  rewrite firstn_all, drop_all.
  rewrite bool_decide_eq_false_2 by done.
  rewrite sub_from_unfold by apply shortcode_match_ok.
  change (shortcode_match _ _ false []) with (@None nat).
  rewrite app_nil_r. unfold emojize_replace. cbn [fst snd].
  rewrite !str_replace_same by done.
  by destruct use_aliases; rewrite Hg.
Qed.

(** C1, amended: a shortcode [:n:] of the table in use, turned into its
    glyph by [emojize] and back by [demojize] in the same naming mode and
    with the default delimiters, is [:n:] again, when [n] is a token of the
    shortcode pattern and [:n:] is the name that the glyph-to-name table of
    the mode records for the glyph.  The glyph is a value of
    [EMOJI_UNICODE] (from which the glyph pattern is built; in canonical
    mode this is the first hypothesis again) and no glyph is empty. *)
Theorem emojize_demojize_roundtrip (cache : regexp_cache)
    (use_aliases : bool) (n g : str) :
  cache_ok EMOJI_UNICODE cache →
  token n →
  (if use_aliases then EMOJI_ALIAS_UNICODE else EMOJI_UNICODE)
    !! shortcode n = Some g →
  (if use_aliases then UNICODE_EMOJI_ALIAS else UNICODE_EMOJI)
    !! g = Some (shortcode n) →
  (use_aliases = true → g ∈ values) →
  [] ∉ values →
  (glyph <- emojize (shortcode n) use_aliases defaults ;;
   ok (demojize cache glyph use_aliases defaults).1)
  = ok (shortcode n).
Proof.
  intros Hc Htok Hg Hname Hval Hne.
  rewrite (emojize_shortcode _ n g) by done. cbn [bind ok]. f_equal.
  assert (g ∈ values) as Hin.
  { destruct use_aliases; [by apply Hval|].
    apply list_elem_of_fmap. exists (shortcode n, g). split; [done|].
    by apply elem_of_map_to_list. }
  assert (g ≠ []) as Hg0 by (by intros ->).
  assert (values ≠ []) as Hv.
  { intros E. rewrite E in Hin. by apply elem_of_nil in Hin. }
  pose proof (demojize_at EMOJI_UNICODE UNICODE_EMOJI UNICODE_EMOJI_ALIAS
                cache [] g [] use_aliases defaults Hc Hin Hg0) as Hat.
  rewrite app_nil_r in Hat. cbn [app] in Hat. rewrite Hat.
  - rewrite demojize_nil, app_nil_r by done.
    unfold demojize_replace. cbn [fst snd].
    replace (default g _) with (shortcode n)
      by (by destruct use_aliases; rewrite Hname).
    rewrite slice_shortcode. fold (shortcode n).
    apply filter_id_notin. unfold shortcode.
    rewrite !elem_of_app. change _DEFAULT_DELIMITER with [58].
    rewrite list_elem_of_singleton.
    pose proof (token_no_selector n Htok). intros [?|[?|?]]; done.
  - intros ? i ? Hi. simpl in Hi. lia.
  - intros g' _ Hp. by apply prefix_length.
Qed.

(** C7, amended: when the table sends U+1F62F to [:hushed_face:] and no
    glyph of the table begins with a character of ["Unicode is tricky "],
    [demojize] with the delimiters [" __"] and ["__ "] returns
    ["Unicode is tricky  __hushed_face__ "]: the space that ends the text
    and the space that opens the delimiter both stand before [__]. *)
Theorem demojize_hushed_face_spacing (cache : regexp_cache) :
  cache_ok EMOJI_UNICODE cache →
  hushed_face ∈ values →
  UNICODE_EMOJI !! hushed_face = Some (u ":hushed_face:") →
  (∀ g, g ∈ values → ∃ c, head g = Some c ∧ c ∉ u "Unicode is tricky ") →
  (demojize cache (u "Unicode is tricky " ++ hushed_face) false
     (u " __", u "__ ")).1
  = u "Unicode is tricky  __hushed_face__ ".
Proof.
  intros Hc Hin Hname Hhead.
  assert ([] ∉ values) as Hne.
  { intros H0. by destruct (Hhead _ H0) as (c & [=] & _). }
  assert (values ≠ []) as Hv.
  { intros E. rewrite E in Hin. by apply elem_of_nil in Hin. }
  pose proof (demojize_at EMOJI_UNICODE UNICODE_EMOJI UNICODE_EMOJI_ALIAS
                cache (u "Unicode is tricky ") hushed_face [] false
                (u " __", u "__ ") Hc Hin) as Hat.
  rewrite app_nil_r in Hat. rewrite Hat.
  - rewrite demojize_nil, app_nil_r by done.
    unfold demojize_replace. rewrite Hname. reflexivity.
  - done.
  - intros g i Hg Hi. pose proof (no_match_by_head values _ hushed_face Hhead g i Hg Hi) as Hno.
    exact Hno.
  - intros g _ Hp. by apply prefix_length.
Qed.

End Roundtrip.

(** ** Concrete cases *)

(** The glyphs of the sample table, in the order of the dictionary. *)
Lemma sample_values :
  emoji_values sample_EMOJI_UNICODE
  = [[0x1F44D]; [0x1F468]; [0x1F468; 0x200D; 0x1F469]; [0x1F62F]].
Proof. vm_compute. reflexivity. Qed.

(** Membership in the values of the sample table, case by case. *)
Ltac sample_glyph H :=
  rewrite sample_values in H;
  repeat (apply elem_of_cons in H as [H|H]; [try discriminate H; subst|]);
  try (by apply elem_of_nil in H).

(** C1, as stated, fails.  In alias mode two names share U+1F44D, and the
    glyph comes back as the one the glyph-to-alias table records, not as
    the name that was given.  In canonical mode the name [:é:] is no token:
    [emojize] leaves it, and [demojize] then finds the glyph inside it. *)
Lemma emojize_demojize_not_always_roundtrip :
  two_alias_EMOJI_ALIAS_UNICODE !! u ":+1:" = Some thumbs_up
  ∧ (glyph <- emojize sample_EMOJI_UNICODE two_alias_EMOJI_ALIAS_UNICODE
                (u ":+1:") true (_DEFAULT_DELIMITER, _DEFAULT_DELIMITER) ;;
     ok (demojize sample_EMOJI_UNICODE sample_UNICODE_EMOJI
           sample_UNICODE_EMOJI_ALIAS None glyph true
           (_DEFAULT_DELIMITER, _DEFAULT_DELIMITER)).1)
    = ok (u ":thumbsup:")
  ∧ u ":thumbsup:" ≠ u ":+1:"
  ∧ accent_EMOJI_UNICODE !! [58; 0xE9; 58] = Some [0xE9]
  ∧ (glyph <- emojize accent_EMOJI_UNICODE accent_EMOJI_UNICODE
                [58; 0xE9; 58] false
                (_DEFAULT_DELIMITER, _DEFAULT_DELIMITER) ;;
     ok (demojize accent_EMOJI_UNICODE accent_UNICODE_EMOJI
           accent_UNICODE_EMOJI None glyph false
           (_DEFAULT_DELIMITER, _DEFAULT_DELIMITER)).1)
    = ok [58; 58; 0xE9; 58; 58].
Proof. split_and!; try (vm_compute; reflexivity). vm_compute. intros [=]. Qed.

Lemma emojize_demojize_roundtrip_witness :
  (glyph <- emojize sample_EMOJI_UNICODE sample_EMOJI_ALIAS_UNICODE
              (shortcode (u "thumbsup")) true
              (_DEFAULT_DELIMITER, _DEFAULT_DELIMITER) ;;
   ok (demojize sample_EMOJI_UNICODE sample_UNICODE_EMOJI
         sample_UNICODE_EMOJI_ALIAS None glyph true
         (_DEFAULT_DELIMITER, _DEFAULT_DELIMITER)).1)
  = ok (shortcode (u "thumbsup")).
Proof.
  apply (emojize_demojize_roundtrip sample_EMOJI_UNICODE
           sample_EMOJI_ALIAS_UNICODE sample_UNICODE_EMOJI
           sample_UNICODE_EMOJI_ALIAS None true (u "thumbsup") thumbs_up).
  - by left.
  - split; [done|]. repeat (constructor; [by vm_compute|]). constructor.
  - vm_compute. reflexivity.
  - vm_compute. reflexivity.
  - intros _. rewrite sample_values. by left.
  - intros H. sample_glyph H.
Defined.


Lemma not_elem_of_decide (c : Z) (l : str) :
  bool_decide (c ∈ l) = false → c ∉ l.
Proof. apply bool_decide_eq_false_1. Qed.


Lemma demojize_hushed_face_spacing_witness :
  (demojize sample_EMOJI_UNICODE sample_UNICODE_EMOJI
     sample_UNICODE_EMOJI_ALIAS None
     (u "Unicode is tricky " ++ hushed_face) false (u " __", u "__ ")).1
  = u "Unicode is tricky  __hushed_face__ ".
Proof.
  apply (demojize_hushed_face_spacing sample_EMOJI_UNICODE
           sample_UNICODE_EMOJI sample_UNICODE_EMOJI_ALIAS None).
  - by left.
  - rewrite sample_values. do 3 right. by left.
  - vm_compute. reflexivity.
  - intros g Hg. sample_glyph Hg; (eexists; split; [reflexivity|]);
      apply not_elem_of_decide; vm_compute; reflexivity.
Defined.

(** C7, as stated, fails: with U+1F62F sent to [:hushed_face:], the result
    is not the text with one space before [__]. *)
Lemma demojize_hushed_face_not_one_space :
  sample_UNICODE_EMOJI !! hushed_face = Some (u ":hushed_face:")
  ∧ (demojize sample_EMOJI_UNICODE sample_UNICODE_EMOJI
       sample_UNICODE_EMOJI_ALIAS None
       (u "Unicode is tricky " ++ hushed_face) false (u " __", u "__ ")).1
    ≠ u "Unicode is tricky __hushed_face__ ".
Proof. split; [vm_compute; reflexivity|]. vm_compute. intros [=]. Qed.

(** C3, at a text the claim covers: [__unknown__] is scanned with the
    delimiters [__], its key [:unknown:] is in no table, and the result is
    that key, not the text as it was written.  With the default delimiters
    the same text comes back unchanged. *)
Lemma emojize_unknown_shortcode_loses_delimiters :
  sample_EMOJI_UNICODE !! u ":unknown:" = None
  ∧ emojize sample_EMOJI_UNICODE sample_EMOJI_ALIAS_UNICODE
      (u "__unknown__") false (u "__", u "__") = ok (u ":unknown:")
  ∧ emojize sample_EMOJI_UNICODE sample_EMOJI_ALIAS_UNICODE
      (u ":unknown:") false (_DEFAULT_DELIMITER, _DEFAULT_DELIMITER)
    = ok (u ":unknown:").
Proof. split_and!; vm_compute; reflexivity. Qed.

(** What [demojize] puts in place of a matched glyph that the table of
    names lacks: the glyph without its first and last characters, between
    the delimiters. *)
Lemma demojize_replace_absent UNICODE_EMOJI UNICODE_EMOJI_ALIAS
    (use_aliases : bool) (delimiters : str * str) (glyph : str) :
  (if use_aliases then UNICODE_EMOJI_ALIAS else UNICODE_EMOJI) !! glyph
    = None →
  demojize_replace UNICODE_EMOJI UNICODE_EMOJI_ALIAS use_aliases delimiters
    glyph
  = delimiters.1 ++ slice_1_m1 glyph ++ delimiters.2.
Proof. intros H. unfold demojize_replace. by rewrite H. Qed.

(** C4, at a match the claim covers: the glyph U+1F44D is in the pattern
    and absent from the table of names in use; the output holds [::] in its
    place, not the glyph. *)
Lemma demojize_absent_glyph_not_echoed :
  stale_UNICODE_EMOJI_ALIAS !! thumbs_up = None
  ∧ thumbs_up ∈ emoji_values sample_EMOJI_UNICODE
  ∧ (demojize sample_EMOJI_UNICODE sample_UNICODE_EMOJI
       stale_UNICODE_EMOJI_ALIAS None (u "ok " ++ thumbs_up) true
       (_DEFAULT_DELIMITER, _DEFAULT_DELIMITER)).1
    = u "ok ::".
Proof.
  split_and!; [vm_compute; reflexivity| |vm_compute; reflexivity].
  rewrite sample_values. by left.
Qed.

(** ** The examples of the docstrings *)

Example emojize_alias :
  emojize sample_EMOJI_UNICODE sample_EMOJI_ALIAS_UNICODE
    (u "Python is fun :thumbsup:") true
    (_DEFAULT_DELIMITER, _DEFAULT_DELIMITER)
  = ok (u "Python is fun " ++ thumbs_up).
Proof. vm_compute. reflexivity. Qed.

Example emojize_canonical :
  emojize sample_EMOJI_UNICODE sample_EMOJI_ALIAS_UNICODE
    (u "Python is fun :thumbs_up:") false
    (_DEFAULT_DELIMITER, _DEFAULT_DELIMITER)
  = ok (u "Python is fun " ++ thumbs_up).
Proof. vm_compute. reflexivity. Qed.

Example emojize_underscores :
  emojize sample_EMOJI_UNICODE sample_EMOJI_ALIAS_UNICODE
    (u "Python is fun __thumbs_up__") false (u "__", u "__")
  = ok (u "Python is fun " ++ thumbs_up).
Proof. vm_compute. reflexivity. Qed.

Example demojize_canonical :
  (demojize sample_EMOJI_UNICODE sample_UNICODE_EMOJI
     sample_UNICODE_EMOJI_ALIAS None (u "Python is fun " ++ thumbs_up)
     false (_DEFAULT_DELIMITER, _DEFAULT_DELIMITER)).1
  = u "Python is fun :thumbs_up:".
Proof. vm_compute. reflexivity. Qed.

Example emoji_lis_fine :
  emoji_lis {[ [0x1F601] := u ":beaming_face_with_smiling_eyes:" ]}
    (u "Hi, I am fine. " ++ [0x1F601])
  = [{| location := 15; emoji := [0x1F601] |}].
Proof. vm_compute. reflexivity. Qed.

Example to_code_point_grinning :
  to_code_point [0x1F600] (u "-") = ok (u "1f600").
Proof. vm_compute. reflexivity. Qed.

Example to_code_point_surrogate_pair :
  to_code_point [0xD83D; 0xDE00] (u "-") = ok (u "1f600").
Proof. vm_compute. reflexivity. Qed.

Example to_code_point_joined :
  to_code_point family_man_woman (u "-") = ok (u "1f468-200d-1f469").
Proof. vm_compute. reflexivity. Qed.

(** * Further properties *)

(** ** The locator and the counter, piece by piece *)

Section LocateMore.

Variable UNICODE_EMOJI : gmap str str.

Lemma emoji_lis_snoc (s : str) (c : Z) :
  emoji_lis UNICODE_EMOJI (s ++ [c])
  = emoji_lis UNICODE_EMOJI s
    ++ (if is_emoji UNICODE_EMOJI c then [entity_at (length s, c)] else []).
Proof.
  unfold emoji_lis. rewrite imap_app, fold_left_app. simpl.
  rewrite Nat.add_0_r.
  destruct (is_emoji UNICODE_EMOJI c); [done|by rewrite app_nil_r].
Qed.

(** X1: the records of [emoji_lis] come in the order of the text: their
    locations increase strictly, and each is an index of the text. *)
Theorem emoji_lis_locations_increase (s : str) :
  StronglySorted lt (location <$> emoji_lis UNICODE_EMOJI s)
  ∧ Forall (λ e, (location e < length s)%nat) (emoji_lis UNICODE_EMOJI s).
Proof.
  induction s as [|c s [IHs IHb]] using rev_ind.
  { split; constructor. }
  rewrite emoji_lis_snoc, length_app. simpl. split.
  - rewrite fmap_app. apply StronglySorted_app_2; [|done|].
    + intros x1 x2 Hx1 Hx2.
      apply list_elem_of_fmap in Hx1 as (e & -> & He).
      rewrite Forall_forall in IHb. specialize (IHb e He).
      destruct (is_emoji UNICODE_EMOJI c); simpl in Hx2.
      * apply list_elem_of_singleton in Hx2. subst x2. simpl. lia.
      * by apply elem_of_nil in Hx2.
    + destruct (is_emoji UNICODE_EMOJI c); simpl; repeat constructor.
  - apply Forall_app. split.
    + eapply Forall_impl; [exact IHb|]. simpl. intros; lia.
    + destruct (is_emoji UNICODE_EMOJI c); repeat constructor. simpl. lia.
Qed.

(** X2: locating and counting go through a concatenation: the records of
    the second part follow those of the first, moved by its length, and the
    counts add up. *)
Theorem emoji_lis_count_app (s1 s2 : str) :
  emoji_lis UNICODE_EMOJI (s1 ++ s2)
  = emoji_lis UNICODE_EMOJI s1
    ++ (shift_location (length s1) <$> emoji_lis UNICODE_EMOJI s2)
  ∧ emoji_count UNICODE_EMOJI (s1 ++ s2)
    = (emoji_count UNICODE_EMOJI s1 + emoji_count UNICODE_EMOJI s2)%nat.
Proof.
  split.
  - induction s2 as [|c s2 IH] using rev_ind.
    { simpl. by rewrite !app_nil_r. }
    rewrite app_assoc, !emoji_lis_snoc, IH, fmap_app, length_app.
    rewrite <-app_assoc. do 2 f_equal.
    by destruct (is_emoji UNICODE_EMOJI c).
  - by rewrite !emoji_count_filter, filter_app, length_app.
Qed.

(** X3: the scan looks at one character at a time: with a table that has
    no key of one character, nothing is located and nothing is counted,
    whatever glyphs of the table the text holds. *)
Theorem emoji_lis_needs_one_character_keys (s : str) :
  (∀ k, is_Some (UNICODE_EMOJI !! k) → length k ≠ 1%nat) →
  emoji_lis UNICODE_EMOJI s = [] ∧ emoji_count UNICODE_EMOJI s = O.
Proof.
  intros Hk.
  assert (∀ c, is_emoji UNICODE_EMOJI c = false) as Hno.
  { intros c. unfold is_emoji. apply bool_decide_eq_false_2.
    intros Hc. by apply Hk in Hc. }
  split.
  - induction s as [|c s IH] using rev_ind; [done|].
    by rewrite emoji_lis_snoc, IH, Hno.
  - rewrite emoji_count_filter.
    induction s as [|c s IH]; [done|].
    rewrite filter_cons_False; [done|]. rewrite Hno. by intros [].
Qed.

End LocateMore.

Lemma emoji_lis_needs_one_character_keys_witness :
  emoji_lis family_UNICODE_EMOJI (u "we " ++ family_man_woman) = []
  ∧ emoji_count family_UNICODE_EMOJI (u "we " ++ family_man_woman) = O.
Proof.
  apply (emoji_lis_needs_one_character_keys family_UNICODE_EMOJI).
  intros k [v Hv]. unfold family_UNICODE_EMOJI in Hv.
  apply lookup_singleton_Some in Hv as [<- _]. simpl. lia.
Defined.

(** ** The code points of a glyph *)

Lemma code_point_loop_no_lead (s : str) :
  Forall (λ c, ¬ (0xD800 ≤ c ≤ 0xDBFF)) s →
  code_point_loop s = (0, format_x <$> s).
Proof.
  induction 1 as [|c s Hc _ IH]; [done|].
  unfold code_point_loop in *. simpl.
  assert ((0xD800 <=? c) && (c <=? 0xDBFF) = false) as ->.
  { apply andb_false_iff.
    destruct (decide (0xD800 ≤ c)); [right|left];
      [apply Z.leb_gt|apply Z.leb_gt]; lia. }
  rewrite code_point_fold, IH. done.
Qed.

(** X4: in an input without lead surrogates every character gives one
    group, its own code in hexadecimal, in the order of the input, after
    the variation selectors are deleted or kept as the first step decides. *)
Theorem to_code_point_no_lead_surrogate (s j : str) :
  Forall (λ c, ¬ (0xD800 ≤ c ≤ 0xDBFF)) s →
  to_code_point s j
  = ok (join j (format_x <$>
                  (if bool_decide (U_200D ∈ s ∧ head s ≠ Some U_1F441)
                   then s else filter (λ c, c ≠ U_FE0F) s))).
Proof.
  intros Hs. rewrite to_code_point_eq.
  assert (strips s
          = negb (bool_decide (U_200D ∈ s ∧ head s ≠ Some U_1F441))) as ->.
  { unfold strips. repeat case_bool_decide; simpl; try done; tauto. }
  case_bool_decide; simpl.
  - by rewrite code_point_loop_no_lead.
  - rewrite code_point_loop_no_lead; [done|].
    rewrite Forall_forall in *. intros c [_ Hc]%list_elem_of_filter. auto.
Qed.

Lemma to_code_point_no_lead_surrogate_witness :
  to_code_point [0x263A; U_FE0F; 0x41] (u "-")
  = ok (join (u "-")
          (format_x <$>
             (if bool_decide (U_200D ∈ [0x263A; U_FE0F; 0x41]
                              ∧ head [0x263A; U_FE0F; 0x41] ≠ Some U_1F441)
              then [0x263A; U_FE0F; 0x41]
              else filter (λ c, c ≠ U_FE0F) [0x263A; U_FE0F; 0x41]))).
Proof.
  apply (to_code_point_no_lead_surrogate [0x263A; U_FE0F; 0x41] (u "-")).
  repeat constructor; unfold U_FE0F; lia.
Defined.

(** X5: the surrogate pair of a code point beyond the basic plane is
    printed as that code point: the pair and the code point itself give
    the same output. *)
Theorem to_code_point_pair_of_scalar (cp : Z) (j : str) :
  0x10000 ≤ cp ≤ 0x10FFFF →
  to_code_point [0xD800 + (cp - 0x10000) / 0x400;
                 0xDC00 + (cp - 0x10000) mod 0x400] j
  = ok (format_x cp)
  ∧ to_code_point [cp] j = ok (format_x cp).
Proof.
  intros Hcp.
  pose proof (Z.div_mod (cp - 0x10000) 0x400 ltac:(lia)) as Hdm.
  pose proof (Z.mod_pos_bound (cp - 0x10000) 0x400 ltac:(lia)) as Hm.
  assert (0 ≤ (cp - 0x10000) / 0x400 ≤ 0x3FF) as Hd.
  { split; [apply Z.div_pos; lia|].
    apply Z.lt_succ_r, Z.div_lt_upper_bound; lia. }
  split.
  - rewrite to_code_point_plain.
    2:{ unfold U_FE0F. rewrite !elem_of_cons, elem_of_nil. lia. }
    rewrite code_point_loop_lead by lia. simpl. f_equal. f_equal.
    rewrite Z.shiftl_mul_pow2 by lia. lia.
  - rewrite to_code_point_plain.
    2:{ unfold U_FE0F. rewrite list_elem_of_singleton. lia. }
    rewrite code_point_loop_no_lead; [done|].
    repeat constructor. lia.
Qed.

Lemma to_code_point_pair_of_scalar_witness :
  to_code_point [0xD800 + (0x1F600 - 0x10000) / 0x400;
                 0xDC00 + (0x1F600 - 0x10000) mod 0x400] (u "-")
  = ok (format_x 0x1F600)
  ∧ to_code_point [0x1F600] (u "-") = ok (format_x 0x1F600).
Proof. apply (to_code_point_pair_of_scalar 0x1F600 (u "-")). lia. Defined.

Lemma hex_digit_char d : 0 ≤ d < 16 → hex_char (hex_digit d).
Proof.
  intros Hd. unfold hex_char, hex_digit.
  destruct (d <? 10) eqn:E; [apply Z.ltb_lt in E|apply Z.ltb_ge in E]; lia.
Qed.

Lemma hex_digits_chars fuel : ∀ n, 0 ≤ n → Forall hex_char (hex_digits fuel n).
Proof.
  induction fuel as [|fuel IH]; intros n Hn; simpl; [constructor|].
  destruct (n <? 16) eqn:E.
  - apply Z.ltb_lt in E. constructor; [|constructor].
    apply hex_digit_char. lia.
  - apply Forall_app. split.
    + apply IH, Z.div_pos; lia.
    + constructor; [|constructor].
      apply hex_digit_char, Z.mod_pos_bound. lia.
Qed.

Lemma format_x_chars n : 0 ≤ n → Forall hex_char (format_x n).
Proof.
  intros Hn. unfold format_x.
  assert ((n <? 0) = false) as -> by (apply Z.ltb_ge; lia).
  by apply hex_digits_chars.
Qed.

Lemma code_point_fold_chars (s : str) : ∀ p r,
  Forall (λ c, 0 ≤ c) s →
  p = 0 ∨ 0xD800 ≤ p →
  Forall (Forall hex_char) r →
  Forall (Forall hex_char) (fold_left code_point_step s (p, r)).2.
Proof.
  induction s as [|c s IH]; intros p r Hs Hp Hr; [done|].
  apply Forall_cons in Hs as [Hc Hs]. simpl.
  destruct (p =? 0) eqn:E; simpl.
  - apply Z.eqb_eq in E. subst p.
    destruct ((0xD800 <=? c) && (c <=? 0xDBFF)) eqn:El.
    + apply andb_prop in El as [El _]. apply Z.leb_le in El.
      apply IH; [done|by right|done].
    + apply IH; [done|by left|].
      apply Forall_app. split; [done|].
      constructor; [|constructor]. by apply format_x_chars.
  - apply Z.eqb_neq in E. apply IH; [done|by left|].
    apply Forall_app. split; [done|]. constructor; [|constructor].
    apply format_x_chars.
    pose proof (Z.shiftl_nonneg (p - 0xD800) 10). lia.
Qed.

Lemma join_chars (j : str) (l : list str) :
  Forall (Forall hex_char) l →
  Forall (λ c, hex_char c ∨ c ∈ j) (join j l).
Proof.
  induction 1 as [|x l Hx Hl IH]; [constructor|].
  assert (Forall (λ c, hex_char c ∨ c ∈ j) x) as Hx'.
  { eapply Forall_impl; [exact Hx|]. by left. }
  destruct l as [|y l]; [done|].
  change (join j (x :: y :: l)) with (x ++ j ++ join j (y :: l)).
  rewrite !Forall_app. split_and!; [done| |done].
  apply Forall_forall. by right.
Qed.

(** X6: the output of [to_code_point] is made of lower-case hexadecimal
    digits and of the characters of the joiner, and of nothing else. *)
Theorem to_code_point_alphabet (s j : str) :
  Forall (λ c, 0 ≤ c) s →
  ∃ r, to_code_point s j = ok r ∧ Forall (λ c, hex_char c ∨ c ∈ j) r.
Proof.
  intros Hs. rewrite to_code_point_eq. eexists. split; [done|].
  apply join_chars, code_point_fold_chars; [|by left|constructor].
  destruct (strips s); [|done].
  rewrite Forall_forall in *. intros c [_ Hc]%list_elem_of_filter. auto.
Qed.

Lemma to_code_point_alphabet_witness :
  ∃ r, to_code_point eye_in_speech_bubble (u "-") = ok r
       ∧ Forall (λ c, hex_char c ∨ c ∈ u "-") r.
Proof.
  apply (to_code_point_alphabet eye_in_speech_bubble (u "-")).
  repeat constructor; by vm_compute.
Defined.

(** ** More on [demojize] and on the pattern cache *)

Lemma insert_by_len_perm x l : insert_by_len x l ≡ₚ x :: l.
Proof.
  induction l as [|y l IH]; simpl; [done|].
  destruct (length y <=? length x)%nat; [done|].
  by rewrite IH, Permutation_swap.
Qed.

Lemma sorted_by_len_reverse_perm l : sorted_by_len_reverse l ≡ₚ l.
Proof.
  induction l as [|x l IH]; simpl; [done|].
  by rewrite insert_by_len_perm, IH.
Qed.

(** The pattern [()] matches the empty string at every place of the text. *)
Lemma sub_from_empty_pattern repl (s : str) :
  sub_from (alt_match [[]]) repl false s
  = repl [] ++ concat ((λ c, c :: repl []) <$> s).
Proof.
  induction s as [|c s IH].
  - rewrite sub_from_unfold, alt_match_single by apply alt_match_ok.
    rewrite bool_decide_eq_true_2 by apply prefix_nil. simpl.
    rewrite sub_from_unfold, alt_match_single by apply alt_match_ok.
    rewrite bool_decide_eq_true_2 by apply prefix_nil. done.
  - rewrite sub_from_unfold, alt_match_single by apply alt_match_ok.
    rewrite bool_decide_eq_true_2 by apply prefix_nil. simpl.
    rewrite sub_from_unfold, alt_match_single by apply alt_match_ok.
    rewrite bool_decide_eq_true_2 by apply prefix_nil. simpl.
    by rewrite IH.
Qed.

Section DemojizeMore.

Variable EMOJI_UNICODE : gmap str str.
Variable EMOJI_ALIAS_UNICODE : gmap str str.
Variable UNICODE_EMOJI : gmap str str.
Variable UNICODE_EMOJI_ALIAS : gmap str str.

Abbreviation emojize := (emojize EMOJI_UNICODE EMOJI_ALIAS_UNICODE).
Abbreviation demojize :=
  (demojize EMOJI_UNICODE UNICODE_EMOJI UNICODE_EMOJI_ALIAS).
Abbreviation replace := (demojize_replace UNICODE_EMOJI UNICODE_EMOJI_ALIAS).
Abbreviation values := (emoji_values EMOJI_UNICODE).
Abbreviation cache_ok := (cache_ok EMOJI_UNICODE).
Abbreviation get_emoji_regexp := (get_emoji_regexp EMOJI_UNICODE).
Abbreviation defaults := (_DEFAULT_DELIMITER, _DEFAULT_DELIMITER).

(** X7: built from a table that is not empty, the pattern holds the glyphs
    of [EMOJI_UNICODE], each as often as the table has it, and nothing
    else; the call fills the cache, and the next call returns the same
    pattern and leaves the cache as it is. *)
Theorem get_emoji_regexp_glyphs :
  values ≠ [] →
  (get_emoji_regexp None).1 ≡ₚ values
  ∧ (get_emoji_regexp None).2 = Some (get_emoji_regexp None).1
  ∧ get_emoji_regexp (get_emoji_regexp None).2 = get_emoji_regexp None.
Proof.
  intros Hv. split_and!; [|done..]. simpl.
  destruct (sorted_by_len_reverse values) as [|x l] eqn:E.
  - pose proof (sorted_by_len_reverse_perm values) as Hp.
    rewrite E in Hp. apply Permutation_nil_l in Hp. congruence.
  - simpl. rewrite <-E. apply sorted_by_len_reverse_perm.
Qed.

(** X8: the state of the cache never shows in the result: a call with a
    filled cache returns what a call with the empty cache returns, and
    after any call the cache is filled. *)
Theorem demojize_cache_transparent (cache : regexp_cache) (s : str)
    (use_aliases : bool) (delimiters : str * str) :
  cache_ok cache →
  demojize cache s use_aliases delimiters
  = demojize None s use_aliases delimiters
  ∧ (demojize cache s use_aliases delimiters).2
    = Some (get_emoji_regexp None).1.
Proof.
  intros Hc. unfold demojize.
  rewrite (get_emoji_regexp_ok _ cache) by done.
  rewrite (get_emoji_regexp_ok _ None) by (by left). done.
Qed.

(** X9: a text in which no glyph of the table begins comes back as it is,
    but for the variation selectors U+FE0F, which are deleted. *)
Theorem demojize_plain_text (cache : regexp_cache) (text : str)
    (use_aliases : bool) (delimiters : str * str) :
  cache_ok cache →
  values ≠ [] →
  (∀ g, g ∈ values → ∃ c, head g = Some c ∧ c ∉ text) →
  (demojize cache text use_aliases delimiters).1
  = filter (λ c, c ≠ U_FE0F) text.
Proof.
  intros Hc Hv Hhead.
  assert ([] ∉ values) as Hne.
  { intros H0. by destruct (Hhead _ H0) as (c & [=] & _). }
  rewrite demojize_eq by done.
  rewrite <-(app_nil_r text) at 1. rewrite sub_from_copy.
  - pose proof (demojize_nil EMOJI_UNICODE UNICODE_EMOJI UNICODE_EMOJI_ALIAS
                  cache use_aliases delimiters Hc Hv Hne) as Hnil.
    rewrite demojize_eq in Hnil by done.
    rewrite filter_app, Hnil. by rewrite app_nil_r.
  - intros g i Hg Hi.
    eapply (no_match_by_head _ text []); [|exact Hg|exact Hi].
    intros g' Hg'. apply Hhead. by apply elem_of_the_pattern.
Qed.

(** X10: a glyph of the table, turned into its shortcode by [demojize] and
    back by [emojize] in the same naming mode and with the default
    delimiters, is the glyph again, when the two tables of the mode send
    the glyph to [:n:] and [:n:] to the glyph. *)
Theorem demojize_emojize_roundtrip (cache : regexp_cache)
    (use_aliases : bool) (n g : str) :
  cache_ok cache →
  token n →
  g ∈ values →
  [] ∉ values →
  (if use_aliases then UNICODE_EMOJI_ALIAS else UNICODE_EMOJI)
    !! g = Some (shortcode n) →
  (if use_aliases then EMOJI_ALIAS_UNICODE else EMOJI_UNICODE)
    !! shortcode n = Some g →
  emojize (demojize cache g use_aliases defaults).1 use_aliases defaults
  = ok g.
Proof.
  intros Hc Htok Hin Hne Hname Hg.
  assert (g ≠ []) as Hg0 by (by intros ->).
  assert (values ≠ []) as Hv.
  { intros E. rewrite E in Hin. by apply elem_of_nil in Hin. }
  pose proof (demojize_at EMOJI_UNICODE UNICODE_EMOJI UNICODE_EMOJI_ALIAS
                cache [] g [] use_aliases defaults Hc Hin Hg0) as Hat.
  rewrite app_nil_r in Hat. cbn [app] in Hat. rewrite Hat.
  - rewrite demojize_nil, app_nil_r by done.
    unfold demojize_replace. cbn [fst snd].
    replace (default g _) with (shortcode n)
      by (by destruct use_aliases; rewrite Hname).
    rewrite slice_shortcode. fold (shortcode n).
    rewrite filter_id_notin.
    + by apply emojize_shortcode.
    + unfold shortcode. rewrite !elem_of_app.
      change _DEFAULT_DELIMITER with [58].
      rewrite list_elem_of_singleton.
      pose proof (token_no_selector n Htok). intros [?|[?|?]]; done.
  - intros ? i ? Hi. simpl in Hi. lia.
  - intros g' _ Hp. by apply prefix_length.
Qed.

(** X11: with an empty [EMOJI_UNICODE] the pattern is [()], which matches
    the empty string everywhere: [demojize] then writes the replacement of
    the empty match (the two delimiters, around what the name of the empty
    string gives) before every character and at the end, and deletes the
    variation selectors. *)
Theorem demojize_empty_table (cache : regexp_cache) (s : str)
    (use_aliases : bool) (delimiters : str * str) :
  cache_ok cache →
  EMOJI_UNICODE = ∅ →
  (demojize cache s use_aliases delimiters).1
  = filter (λ c, c ≠ U_FE0F)
      (replace use_aliases delimiters []
       ++ concat ((λ c, c :: replace use_aliases delimiters []) <$> s)).
Proof.
  intros Hc He. rewrite demojize_eq by done.
  unfold emoji_values. rewrite He, map_to_list_empty. simpl.
  by rewrite sub_from_empty_pattern.
Qed.

End DemojizeMore.

Lemma get_emoji_regexp_glyphs_witness :
  (get_emoji_regexp sample_EMOJI_UNICODE None).1
    ≡ₚ emoji_values sample_EMOJI_UNICODE
  ∧ (get_emoji_regexp sample_EMOJI_UNICODE None).2
    = Some (get_emoji_regexp sample_EMOJI_UNICODE None).1
  ∧ get_emoji_regexp sample_EMOJI_UNICODE
      (get_emoji_regexp sample_EMOJI_UNICODE None).2
    = get_emoji_regexp sample_EMOJI_UNICODE None.
Proof.
  apply (get_emoji_regexp_glyphs sample_EMOJI_UNICODE).
  rewrite sample_values. discriminate.
Defined.

Lemma demojize_cache_transparent_witness :
  demojize sample_EMOJI_UNICODE sample_UNICODE_EMOJI
    sample_UNICODE_EMOJI_ALIAS
    (Some (get_emoji_regexp sample_EMOJI_UNICODE None).1)
    (u "good " ++ thumbs_up) false (_DEFAULT_DELIMITER, _DEFAULT_DELIMITER)
  = demojize sample_EMOJI_UNICODE sample_UNICODE_EMOJI
      sample_UNICODE_EMOJI_ALIAS None
      (u "good " ++ thumbs_up) false (_DEFAULT_DELIMITER, _DEFAULT_DELIMITER)
  ∧ (demojize sample_EMOJI_UNICODE sample_UNICODE_EMOJI
       sample_UNICODE_EMOJI_ALIAS
       (Some (get_emoji_regexp sample_EMOJI_UNICODE None).1)
       (u "good " ++ thumbs_up) false
       (_DEFAULT_DELIMITER, _DEFAULT_DELIMITER)).2
    = Some (get_emoji_regexp sample_EMOJI_UNICODE None).1.
Proof.
  apply (demojize_cache_transparent sample_EMOJI_UNICODE sample_UNICODE_EMOJI
           sample_UNICODE_EMOJI_ALIAS).
  right. reflexivity.
Defined.

Lemma demojize_plain_text_witness :
  (demojize sample_EMOJI_UNICODE sample_UNICODE_EMOJI
     sample_UNICODE_EMOJI_ALIAS None (u "plain text") false
     (_DEFAULT_DELIMITER, _DEFAULT_DELIMITER)).1
  = filter (λ c, c ≠ U_FE0F) (u "plain text").
Proof.
  apply (demojize_plain_text sample_EMOJI_UNICODE sample_UNICODE_EMOJI
           sample_UNICODE_EMOJI_ALIAS None).
  - by left.
  - rewrite sample_values. discriminate.
  - intros g Hg. sample_glyph Hg; (eexists; split; [reflexivity|]);
      apply not_elem_of_decide; vm_compute; reflexivity.
Defined.

Lemma demojize_emojize_roundtrip_witness :
  emojize sample_EMOJI_UNICODE sample_EMOJI_ALIAS_UNICODE
    (demojize sample_EMOJI_UNICODE sample_UNICODE_EMOJI
       sample_UNICODE_EMOJI_ALIAS None thumbs_up true
       (_DEFAULT_DELIMITER, _DEFAULT_DELIMITER)).1
    true (_DEFAULT_DELIMITER, _DEFAULT_DELIMITER)
  = ok thumbs_up.
Proof.
  apply (demojize_emojize_roundtrip sample_EMOJI_UNICODE
           sample_EMOJI_ALIAS_UNICODE sample_UNICODE_EMOJI
           sample_UNICODE_EMOJI_ALIAS None true (u "thumbsup") thumbs_up).
  - by left.
  - split; [done|]. repeat (constructor; [by vm_compute|]). constructor.
  - rewrite sample_values. by left.
  - intros H. sample_glyph H.
  - vm_compute. reflexivity.
  - vm_compute. reflexivity.
Defined.

Lemma demojize_empty_table_witness :
  (demojize ∅ ∅ ∅ None (u "ab") false
     (_DEFAULT_DELIMITER, _DEFAULT_DELIMITER)).1
  = filter (λ c, c ≠ U_FE0F)
      (demojize_replace ∅ ∅ false
         (_DEFAULT_DELIMITER, _DEFAULT_DELIMITER) []
       ++ concat ((λ c, c :: demojize_replace ∅ ∅ false
                              (_DEFAULT_DELIMITER, _DEFAULT_DELIMITER) [])
                  <$> u "ab")).
Proof.
  apply (demojize_empty_table ∅ ∅ ∅ None (u "ab") false
           (_DEFAULT_DELIMITER, _DEFAULT_DELIMITER)).
  - by left.
  - reflexivity.
Defined.

(** ** More on [emojize] *)

Lemma sub_from_skip m repl (pre rest : str) :
  matcher_ok m →
  (∀ i, (i < length pre)%nat → m false (drop i (pre ++ rest)) = None) →
  sub_from m repl false (pre ++ rest) = pre ++ sub_from m repl false rest.
Proof.
  intros Hok. induction pre as [|c pre IH]; intros Hno; [done|].
  rewrite sub_from_unfold by done.
  assert (m false ((c :: pre) ++ rest) = None) as ->
    by (apply (Hno O); simpl; lia).
  simpl. f_equal. apply IH. intros i Hi.
  apply (Hno (S i)). simpl. lia.
Qed.

Lemma run_length_stop n rest :
  Forall (λ c, Is_true (token_char c)) n →
  (∀ c, head rest = Some c → token_char c = false) →
  run_length token_char (n ++ rest) = length n.
Proof.
  intros Hn Hrest. induction Hn as [|c n Hc _ IH]; simpl.
  - destruct rest as [|c rest]; [done|]. simpl. by rewrite (Hrest c).
  - destruct (token_char c); [|done]. by rewrite IH.
Qed.

Lemma find_reverse_seq_top (P : nat → bool) k :
  (1 ≤ k)%nat → P k = true → find P (reverse (seq 1 k)) = Some k.
Proof.
  intros Hk HP. destruct k as [|k]; [lia|].
  rewrite reverse_seq_S. simpl. by rewrite HP.
Qed.

Lemma plain_delimiter_head d c rest :
  plain_delimiter d → head (d ++ rest) = Some c → token_char c = false.
Proof.
  intros (Hne & _ & Hd) Hc. destruct d as [|x d]; [done|].
  simpl in Hc. injection Hc as ->. by apply Forall_cons in Hd as [? _].
Qed.

(** Where [d], a name and [d] stand, the pattern matches just them. *)
Lemma shortcode_match_at d n post ma :
  plain_delimiter d → token n →
  shortcode_match d d ma (d ++ n ++ d ++ post)
  = Some (length (d ++ n ++ d)).
Proof.
  intros Hd [Hne Htok]. unfold shortcode_match.
  rewrite bool_decide_eq_true_2 by (by apply prefix_app_r).
  rewrite drop_app_length.
  rewrite run_length_stop; [|done|intros c; by apply plain_delimiter_head].
  rewrite (find_reverse_seq_top _ (length n)).
  - simpl. rewrite !length_app. f_equal. lia.
  - destruct n; [done|simpl; lia].
  - rewrite drop_app_length. apply bool_decide_eq_true_2.
    by apply prefix_app_r.
Qed.

Lemma shortcode_match_no_open d ma (text : str) c :
  head d = Some c → head text ≠ Some c →
  shortcode_match d d ma text = None.
Proof.
  intros Hd Ht. unfold shortcode_match.
  rewrite bool_decide_eq_false_2; [done|].
  intros Hp. destruct d as [|x d]; simplify_eq/=.
  destruct text as [|y text].
  - by apply prefix_nil_not in Hp.
  - apply prefix_cons_inv_1 in Hp. by subst.
Qed.

Lemma str_replace_nil old new : old ≠ [] → str_replace old new [] = [].
Proof.
  intros Hne. unfold str_replace. rewrite re_sub_from.
  rewrite sub_from_unfold, alt_match_single by apply alt_match_ok.
  rewrite bool_decide_eq_false_2; [done|].
  intros Hp. by apply prefix_nil_inv in Hp.
Qed.

Lemma str_replace_here old new t :
  old ≠ [] → str_replace old new (old ++ t) = new ++ str_replace old new t.
Proof.
  intros Hne. unfold str_replace. rewrite !re_sub_from.
  rewrite sub_from_unfold, alt_match_single by apply alt_match_ok.
  rewrite bool_decide_eq_true_2 by (by apply prefix_app_r).
  simpl. rewrite drop_app_length.
  by rewrite bool_decide_eq_false_2 by (by destruct old).
Qed.

Lemma str_replace_skip old new c t :
  ¬ old `prefix_of` (c :: t) →
  str_replace old new (c :: t) = c :: str_replace old new t.
Proof.
  intros Hp. unfold str_replace. rewrite !re_sub_from.
  rewrite sub_from_unfold, alt_match_single by apply alt_match_ok.
  by rewrite bool_decide_eq_false_2.
Qed.

Lemma str_replace_tokens d new n rest :
  plain_delimiter d →
  Forall (λ c, Is_true (token_char c)) n →
  str_replace d new (n ++ rest) = n ++ str_replace d new rest.
Proof.
  intros Hd Hn. induction Hn as [|c n Hc _ IH]; [done|].
  simpl. rewrite str_replace_skip, IH; [done|].
  intros Hp. destruct Hd as (Hne & _ & Hd).
  destruct d as [|x d]; [done|].
  apply prefix_cons_inv_1 in Hp. subst x.
  apply Forall_cons in Hd as [Hx _]. rewrite Hx in Hc. done.
Qed.

(** The two [replace] calls of [emojize] turn [d ++ n ++ d] into [:n:]. *)
Lemma normalize_shortcode d n :
  plain_delimiter d → token n →
  str_replace d _DEFAULT_DELIMITER
    (str_replace d _DEFAULT_DELIMITER (d ++ n ++ d))
  = shortcode n.
Proof.
  intros Hd [Hne Htok]. pose proof Hd as (Hd0 & _ & Hdt).
  rewrite str_replace_here by done.
  rewrite (str_replace_tokens d _ n d) by done.
  assert (str_replace d _DEFAULT_DELIMITER d = _DEFAULT_DELIMITER) as ->.
  { pose proof (str_replace_here d _DEFAULT_DELIMITER [] Hd0) as H.
    by rewrite str_replace_nil, !app_nil_r in H. }
  fold (shortcode n).
  destruct (decide (d = _DEFAULT_DELIMITER)) as [->|Hdc].
  { by apply str_replace_same. }
  unfold shortcode. change _DEFAULT_DELIMITER with [58] in *.
  assert (¬ d `prefix_of` [58]) as Hlast.
  { intros Hp. destruct d as [|x d]; [done|].
    pose proof (prefix_cons_inv_1 _ _ _ _ Hp) as ->.
    apply prefix_cons_inv_2, prefix_nil_inv in Hp. by subst. }
  simpl. rewrite str_replace_skip.
  - rewrite (str_replace_tokens d _ n [58]) by done.
    rewrite str_replace_skip by done. by rewrite str_replace_nil.
  - intros Hp. destruct d as [|x d]; [done|].
    pose proof (prefix_cons_inv_1 _ _ _ _ Hp) as ->.
    apply prefix_cons_inv_2 in Hp.
    destruct d as [|y d]; [done|].
    destruct n as [|c n]; [done|].
    apply prefix_cons_inv_1 in Hp. subst y.
    apply Forall_cons in Htok as [Hc _].
    apply Forall_cons in Hdt as [_ Hdt].
    apply Forall_cons in Hdt as [Hy _]. rewrite Hy in Hc. done.
Qed.

Lemma default_delimiter_plain : plain_delimiter _DEFAULT_DELIMITER.
Proof. split_and!; [done|done|]. by repeat constructor. Qed.

Section EmojizeMore.

Variable EMOJI_UNICODE : gmap str str.
Variable EMOJI_ALIAS_UNICODE : gmap str str.

Abbreviation emojize := (emojize EMOJI_UNICODE EMOJI_ALIAS_UNICODE).
Abbreviation replace := (emojize_replace EMOJI_UNICODE EMOJI_ALIAS_UNICODE).
Abbreviation names b :=
  (if b : bool then EMOJI_ALIAS_UNICODE else EMOJI_UNICODE).
Abbreviation defaults := (_DEFAULT_DELIMITER, _DEFAULT_DELIMITER).

Lemma emojize_eq text b d :
  literal d = true →
  emojize text b (d, d)
  = ok (sub_from (shortcode_match d d) (replace b (d, d)) false text).
Proof. intros Hl. unfold emojize. simpl. by rewrite Hl. Qed.

Lemma emojize_replace_at b d n :
  plain_delimiter d → token n →
  replace b (d, d) (d ++ n ++ d)
  = default (shortcode n) (names b !! shortcode n).
Proof.
  intros Hd Hn. unfold emojize_replace. cbn [fst snd].
  rewrite normalize_shortcode by done. by destruct b.
Qed.

Lemma emojize_at b d pre n post :
  plain_delimiter d → token n →
  (∀ c, head d = Some c → c ∉ pre) →
  sub_from (shortcode_match d d) (replace b (d, d)) false
    (pre ++ (d ++ n ++ d) ++ post)
  = pre ++ default (shortcode n) (names b !! shortcode n)
    ++ sub_from (shortcode_match d d) (replace b (d, d)) false post.
Proof.
  intros Hd Hn Hpre. pose proof Hd as (Hd0 & _ & _).
  rewrite sub_from_skip; [|apply shortcode_match_ok|].
  - f_equal. rewrite sub_from_unfold by apply shortcode_match_ok.
    rewrite <-!app_assoc, shortcode_match_at by done.
    rewrite !app_assoc, take_app_length, drop_app_length.
    rewrite <-!app_assoc, emojize_replace_at by done.
    rewrite bool_decide_eq_false_2; [done|].
    rewrite !length_app. destruct d; [done|simpl; lia].
  - intros i Hi. destruct d as [|x d]; [done|].
    apply (shortcode_match_no_open _ _ _ x); [done|].
    rewrite drop_app_le by lia.
    destruct (drop i pre) as [|y t] eqn:E.
    { apply (f_equal length) in E. rewrite length_drop in E.
      simpl in E. lia. }
    simpl. intros [= ->]. apply (Hpre x); [done|].
    apply (subseteq_drop i pre). rewrite E. by left.
Qed.

(** X12: a shortcode [d n d], written with a plain delimiter [d] on both
    sides and standing after a stretch [pre] free of the first character
    of [d], is replaced by the glyph that the table in use gives for
    [:n:]; the text before it is kept and the scan goes on behind it.
    When the table has no [:n:], the key [:n:] itself is written. *)
Theorem emojize_shortcode_in_text (use_aliases : bool) (d pre n post : str) :
  plain_delimiter d →
  token n →
  (∀ c, head d = Some c → c ∉ pre) →
  emojize (pre ++ (d ++ n ++ d) ++ post) use_aliases (d, d)
  = (rest <- emojize post use_aliases (d, d) ;;
     ok (pre ++ default (shortcode n) (names use_aliases !! shortcode n)
         ++ rest)).
Proof.
  intros Hd Hn Hpre. pose proof Hd as (_ & Hl & _).
  rewrite !emojize_eq by done. cbn [bind ok]. f_equal.
  by apply emojize_at.
Qed.

(** X13: a text in which the first character of the opening delimiter
    does not occur, or which has no character of the token class, comes
    back unchanged; so does the empty text. *)
Theorem emojize_without_shortcode (use_aliases : bool) (d text : str) :
  literal d = true →
  (∃ c, head d = Some c ∧ c ∉ text)
  ∨ Forall (λ c, token_char c = false) text →
  emojize text use_aliases (d, d) = ok text.
Proof.
  intros Hl Hcase. rewrite emojize_eq by done. f_equal.
  assert (∀ i, shortcode_match d d false (drop i text) = None) as Hnone.
  { intros i. destruct Hcase as [(c & Hc & Hn)|Hnt].
    - apply (shortcode_match_no_open _ _ _ c); [done|].
      destruct (drop i text) as [|y t] eqn:E; [done|].
      intros [= ->]. apply Hn, (subseteq_drop i text). rewrite E. by left.
    - unfold shortcode_match. case_bool_decide; [|done].
      rewrite drop_drop.
      destruct (drop (i + length d) text) as [|y t] eqn:E; [done|].
      assert (y ∈ text) as Hy.
      { apply (subseteq_drop (i + length d) text). rewrite E. by left. }
      rewrite Forall_forall in Hnt. simpl. by rewrite (Hnt y Hy). }
  rewrite <-(app_nil_r text) at 1.
  rewrite sub_from_skip; [|apply shortcode_match_ok|].
  - rewrite sub_from_unfold by apply shortcode_match_ok.
    specialize (Hnone (length text)). rewrite drop_all in Hnone.
    rewrite Hnone. by rewrite app_nil_r.
  - intros i _. rewrite app_nil_r. apply Hnone.
Qed.

(** X14: the choice of a plain delimiter does not show in the result: a
    name between two [d] and read with the delimiters [(d, d)] gives what
    the same name between colons gives with the default delimiters. *)
Theorem emojize_delimiter_independent (use_aliases : bool) (d n : str) :
  plain_delimiter d →
  token n →
  emojize (d ++ n ++ d) use_aliases (d, d)
  = emojize (shortcode n) use_aliases defaults.
Proof.
  intros Hd Hn.
  assert (∀ d', plain_delimiter d' →
            emojize (d' ++ n ++ d') use_aliases (d', d')
            = ok (default (shortcode n)
                    (names use_aliases !! shortcode n))) as Hone.
  { intros d' Hd'. pose proof Hd' as (Hne & Hl & _).
    rewrite emojize_eq by done. f_equal.
    pose proof (emojize_at use_aliases d' [] n [] Hd' Hn) as Hat.
    rewrite app_nil_r in Hat. cbn [app] in Hat. rewrite Hat.
    - rewrite sub_from_unfold by apply shortcode_match_ok.
      destruct d' as [|x d']; [done|].
      rewrite (shortcode_match_no_open _ _ _ x) by done.
      by rewrite app_nil_r.
    - intros c _. apply not_elem_of_nil. }
  rewrite (Hone d Hd). symmetry. apply (Hone _ default_delimiter_plain).
Qed.

End EmojizeMore.

Lemma tilde_plain : plain_delimiter (u "~").
Proof.
  split_and!; [done|vm_compute; reflexivity|].
  constructor; [vm_compute; reflexivity|constructor].
Qed.

Lemma thumbs_up_token : token (u "thumbs_up").
Proof. split; [done|]. repeat (constructor; [by vm_compute|]). constructor. Qed.

Lemma emojize_shortcode_in_text_witness :
  emojize sample_EMOJI_UNICODE sample_EMOJI_ALIAS_UNICODE
    (u "so " ++ (u "~" ++ u "thumbs_up" ++ u "~") ++ u "!") false
    (u "~", u "~")
  = (rest <- emojize sample_EMOJI_UNICODE sample_EMOJI_ALIAS_UNICODE
               (u "!") false (u "~", u "~") ;;
     ok (u "so "
         ++ default (shortcode (u "thumbs_up"))
              (sample_EMOJI_UNICODE !! shortcode (u "thumbs_up"))
         ++ rest)).
Proof.
  apply (emojize_shortcode_in_text sample_EMOJI_UNICODE
           sample_EMOJI_ALIAS_UNICODE false (u "~") (u "so ")
           (u "thumbs_up") (u "!")).
  - exact tilde_plain.
  - exact thumbs_up_token.
  - intros c [= <-]. apply not_elem_of_decide. vm_compute. reflexivity.
Defined.

Lemma emojize_without_shortcode_witness :
  emojize sample_EMOJI_UNICODE sample_EMOJI_ALIAS_UNICODE
    (u "no shortcode here") true (_DEFAULT_DELIMITER, _DEFAULT_DELIMITER)
  = ok (u "no shortcode here").
Proof.
  apply (emojize_without_shortcode sample_EMOJI_UNICODE
           sample_EMOJI_ALIAS_UNICODE true _DEFAULT_DELIMITER).
  - vm_compute. reflexivity.
  - left. exists 58. split; [reflexivity|].
    apply not_elem_of_decide. vm_compute. reflexivity.
Defined.

Lemma emojize_delimiter_independent_witness :
  emojize sample_EMOJI_UNICODE sample_EMOJI_ALIAS_UNICODE
    (u "~" ++ u "thumbs_up" ++ u "~") false (u "~", u "~")
  = emojize sample_EMOJI_UNICODE sample_EMOJI_ALIAS_UNICODE
      (shortcode (u "thumbs_up")) false
      (_DEFAULT_DELIMITER, _DEFAULT_DELIMITER).
Proof.
  apply (emojize_delimiter_independent sample_EMOJI_UNICODE
           sample_EMOJI_ALIAS_UNICODE false (u "~") (u "thumbs_up")).
  - exact tilde_plain.
  - exact thumbs_up_token.
Defined.
